(** * Hybrid circuit partitioner (partition_P1/partitioner.py)

    Shallow embedding of [partitioner.py].  Node ids are [nat] (the
    parser's string signal names, up to a renaming); a Python [set] of
    nodes is a [gset nat]; the [partitions] list is a [list (gset nat)]
    updated by index; the [node_to_partition] dict is a [gmap nat nat].
    Python exceptions (KeyError, IndexError, ZeroDivisionError) are the
    [None] of the option monad.  The two library calls (scikit-learn's
    SpectralClustering and networkx's kernighan_lin_bisection) and the
    iteration order of Python sets are parameters of the development. *)

From Stdlib Require Import QArith.
From stdpp Require Import base gmap sets list sorting list_monad.

Local Open Scope nat_scope.

(** ** Graph: a networkx DiGraph *)

Record graph := mk_graph {
  g_nodes : list nat;            (** [graph.nodes()], insertion order *)
  g_edges : list (nat * nat)     (** [graph.edges()], directed (u, v) *)
}.

(** A DiGraph has each node and each edge once and every edge endpoint
    is a node. *)
Definition wf_graph (g : graph) : Prop :=
  NoDup (g_nodes g) /\ NoDup (g_edges g) /\
  (forall u v, (u, v) ∈ g_edges g -> u ∈ g_nodes g /\ v ∈ g_nodes g).

Definition has_edge (g : graph) (u v : nat) : bool :=
  bool_decide ((u, v) ∈ g_edges g).

Definition predecessors (g : graph) (n : nat) : list nat :=
  map fst (filter (fun e => e.2 = n) (g_edges g)).

Definition successors (g : graph) (n : nat) : list nat :=
  map snd (filter (fun e => e.1 = n) (g_edges g)).

(** [nx.all_neighbors(graph, n)]: predecessors, then successors *)
Definition all_neighbors (g : graph) (n : nat) : list nat :=
  predecessors g n ++ successors g n.

(** ** node_to_partition *)

(** [{node: i for i, p in enumerate(partitions) for node in p}]: a later
    index overrides an earlier one (left-biased union). *)
Fixpoint build_ntp_from (i : nat) (ps : list (gset nat)) : gmap nat nat :=
  match ps with
  | [] => ∅
  | p :: ps' => build_ntp_from (S i) ps' ∪ gset_to_gmap i p
  end.

Definition build_ntp (ps : list (gset nat)) : gmap nat nat := build_ntp_from 0 ps.

(** ** _calculate_cut_size *)

Definition cut_of (g : graph) (ntp : gmap nat nat) : nat :=
  length (filter (fun e => ntp !! e.1 <> ntp !! e.2) (g_edges g)).

Definition calculate_cut_size (g : graph) (ps : list (gset nat)) : nat :=
  cut_of g (build_ntp ps).

(** ** _get_io_for_partition *)

Definition get_io_for_partition (g : graph) (P : gset nat) : nat * nat :=
  let inputs : gset nat :=
    list_to_set (map fst (filter (fun e => e.2 ∈ P /\ e.1 ∉ P) (g_edges g))) in
  let outputs : gset nat :=
    list_to_set (map snd (filter (fun e => e.1 ∈ P /\ e.2 ∉ P) (g_edges g))) in
  (size inputs, size outputs).

(** ** _find_adjacent_partitions *)

Fixpoint enumerate {A} (i : nat) (l : list A) : list (nat * A) :=
  match l with
  | [] => []
  | x :: l' => (i, x) :: enumerate (S i) l'
  end.

(** [any(graph.has_edge(u, v) or graph.has_edge(v, u) for u, v in
    itertools.product(part_A, part_B))], together with the number of
    [has_edge] calls made ([or] and [any] short-circuit). *)
Fixpoint any_edge_between (g : graph) (uvs : list (nat * nat)) : bool * nat :=
  match uvs with
  | [] => (false, 0)
  | (u, v) :: uvs' =>
      if has_edge g u v then (true, 1)
      else if has_edge g v u then (true, 2)
      else let r := any_edge_between g uvs' in (r.1, 2 + r.2)
  end.

Definition adjacent_step (g : graph) (acc : gset (nat * nat) * nat)
    (ij : (nat * gset nat) * (nat * gset nat)) : gset (nat * nat) * nat :=
  let '((i, A), (j, B)) := ij in
  if decide (j <= i) then acc
  else
    let r := any_edge_between g (list_prod (elements A) (elements B)) in
    ((if r.1 then {[(i, j)]} ∪ acc.1 else acc.1), acc.2 + r.2).

(** The double loop over [enumerate(partitions)], with the count of
    [has_edge] calls as a second component. *)
Definition find_adjacent_scan (g : graph) (ps : list (gset nat))
    : gset (nat * nat) * nat :=
  foldl (adjacent_step g) (∅, 0) (list_prod (enumerate 0 ps) (enumerate 0 ps)).

(** [adj_pairs] before its conversion to a list *)
Definition find_adjacent_partitions (g : graph) (ps : list (gset nat))
    : gset (nat * nat) :=
  (find_adjacent_scan g ps).1.

Definition find_adjacent_cost (g : graph) (ps : list (gset nat)) : nat :=
  (find_adjacent_scan g ps).2.

(** The single pass over the edges that section 4.2 of the spec asks
    for: look up both endpoints, record the pair when they differ. *)
Definition edge_pass_step (ntp : gmap nat nat) (acc : gset (nat * nat))
    (e : nat * nat) : gset (nat * nat) :=
  match ntp !! e.1, ntp !! e.2 with
  | Some i, Some j =>
      if decide (i = j) then acc else {[(Nat.min i j, Nat.max i j)]} ∪ acc
  | _, _ => acc
  end.

Definition adjacent_by_edge_pass (g : graph) (ps : list (gset nat))
    : gset (nat * nat) :=
  foldl (edge_pass_step (build_ntp ps)) ∅ (g_edges g).

(** ** Phase 3: I/O balancing *)

(** A candidate move: node, target partition, [total_gain]. *)
Definition move := (nat * nat * Q)%type.

Inductive stop_reason := NoBoundary | NoImprovement | PassCap.

(** Result of the balancing loop.  [io_trace] lists the state after
    each applied move and [io_passes] counts the loop iterations; both
    only observe the run. *)
Record io_outcome := mk_io_outcome {
  io_parts : list (gset nat);
  io_ntp : gmap nat nat;
  io_stop : stop_reason;
  io_passes : nat;
  io_trace : list (list (gset nat) * gmap nat nat)
}.

Section IOBalance.

(** Iteration order of a Python [set] of node ids (strings: it depends
    on the per-process hash seed) and of a [set] of partition indices. *)
Variable node_order : list nat -> list nat.
Variable idx_order : list nat -> list nat.
Variable g : graph.
(** [io_balance_alpha] *)
Variable alpha : Q.

(** [boundary_nodes]: both endpoints of every edge whose endpoints map
    to different partitions. *)
Definition boundary_nodes (ntp : gmap nat nat) : gset nat :=
  list_to_set (concat (map (fun e => if decide (ntp !! e.1 <> ntp !! e.2)
                                     then [e.1; e.2] else []) (g_edges g))).

(** [neighbor_partitions] *)
Definition neighbor_partitions (ntp : gmap nat nat) (n : nat) : gset nat :=
  list_to_set (omap (fun nb => ntp !! nb) (all_neighbors g n)).

Definition cut_gain_step (ntp : gmap nat nat) (c t : nat) (acc : Z) (nb : nat) : Z :=
  match ntp !! nb with
  | None => acc
  | Some p => if decide (p = c) then (acc - 1)%Z
              else if decide (p = t) then (acc + 1)%Z else acc
  end.

(** [cut_gain] of moving [n] from [c] to [t] *)
Definition cut_gain (ntp : gmap nat nat) (n c t : nat) : Z :=
  foldl (cut_gain_step ntp c t) 0%Z (all_neighbors g n).

Definition imbalance (io : nat * nat) : Z := Z.abs (Z.of_nat io.1 - Z.of_nat io.2).

(** [io_gain]; [partitions[part_idx]] raises IndexError out of range. *)
Definition io_gain (ps : list (gset nat)) (n c t : nat) : option Z :=
  pc ← ps !! c;
  pt ← ps !! t;
  let before := (imbalance (get_io_for_partition g pc)
                 + imbalance (get_io_for_partition g pt))%Z in
  let after := (imbalance (get_io_for_partition g (pc ∖ {[n]}))
                + imbalance (get_io_for_partition g (pt ∪ {[n]})))%Z in
  Some (before - after)%Z.

(** [total_gain = cut_gain + io_balance_alpha * io_gain] *)
Definition total_gain (cg io : Z) : Q := inject_Z cg + alpha * inject_Z io.

(** [total_gain > best_move['cost_improvement']], the initial best being
    [-inf] ([None]). *)
Definition improves (tg : Q) (best : option move) : bool :=
  match best with
  | None => true
  | Some (_, _, b) => if Qlt_le_dec b tg then true else false
  end.

(** [for target_part_idx in neighbor_partitions: ...] *)
Fixpoint scan_targets (ps : list (gset nat)) (ntp : gmap nat nat) (n c : nat)
    (ts : list nat) (best : option move) : option (option move) :=
  match ts with
  | [] => Some best
  | t :: ts' =>
      if decide (t = c) then scan_targets ps ntp n c ts' best
      else
        io ← io_gain ps n c t;
        let tg := total_gain (cut_gain ntp n c t) io in
        scan_targets ps ntp n c ts' (if improves tg best then Some (n, t, tg) else best)
  end.

(** [for node in boundary_nodes: ...]; [node_to_partition[node]] raises
    KeyError for an unmapped node. *)
Fixpoint scan_nodes (ps : list (gset nat)) (ntp : gmap nat nat)
    (ns : list nat) (best : option move) : option (option move) :=
  match ns with
  | [] => Some best
  | n :: ns' =>
      c ← ntp !! n;
      best' ← scan_targets ps ntp n c (idx_order (elements (neighbor_partitions ntp n))) best;
      scan_nodes ps ntp ns' best'
  end.

(** The move chosen by one pass over the boundary nodes. *)
Definition select_move (ps : list (gset nat)) (ntp : gmap nat nat) : option (option move) :=
  scan_nodes ps ntp (node_order (elements (boundary_nodes ntp))) None.

(** Lines 247-253: remove from the current partition, add to the target,
    update the map. *)
Definition apply_move (ps : list (gset nat)) (ntp : gmap nat nat) (n t : nat)
    : option (list (gset nat) * gmap nat nat) :=
  c ← ntp !! n;
  pc ← ps !! c;
  if decide (n ∈ (pc : gset nat)) then
    let ps1 := <[c := pc ∖ {[n]}]> ps in
    pt ← ps1 !! t;
    Some (<[t := pt ∪ {[n]}]> ps1, <[n := t]> ntp)
  else None.

(** [for iteration in range(MAX_IO_BALANCE_ITERATIONS)] with [fuel]
    iterations left. *)
Fixpoint io_loop (fuel : nat) (ps : list (gset nat)) (ntp : gmap nat nat)
    : option io_outcome :=
  match fuel with
  | 0 => Some (mk_io_outcome ps ntp PassCap 0 [])
  | S f =>
      if decide (boundary_nodes ntp = ∅) then Some (mk_io_outcome ps ntp NoBoundary 1 [])
      else
        best ← select_move ps ntp;
        match best with
        | Some (n, t, tg) =>
            if Qlt_le_dec 0 tg then
              st ← apply_move ps ntp n t;
              r ← io_loop f st.1 st.2;
              Some (mk_io_outcome (io_parts r) (io_ntp r) (io_stop r)
                      (S (io_passes r)) (st :: io_trace r))
            else Some (mk_io_outcome ps ntp NoImprovement 1 [])
        | None => Some (mk_io_outcome ps ntp NoImprovement 1 [])
        end
  end.

(** Phase 3 on the partitions left by the refinement phase, with
    [MAX_IO_BALANCE_ITERATIONS = graph.number_of_nodes()]. *)
Definition io_balance (ps : list (gset nat)) : option io_outcome :=
  io_loop (length (g_nodes g)) ps (build_ntp ps).

End IOBalance.

(** ** hybrid_partitioner *)

(** [math.ceil(num_nodes / target_partition_size)] for a positive size
    (exact while the node count stays below 2^53). *)
Definition ceil_div (n t : nat) : nat := (n + t - 1) / t.

(** [partitions[labels[i]].add(node)] for [i, node in
    enumerate(node_list)]; a missing label or an out-of-range label is
    an IndexError. *)
Fixpoint assign_labels (ps : list (gset nat)) (nodes labels : list nat)
    : option (list (gset nat)) :=
  match nodes, labels with
  | [], _ => Some ps
  | _ :: _, [] => None
  | n :: ns, l :: ls =>
      p ← ps !! l;
      assign_labels (<[l := p ∪ {[n]}]> ps) ns ls
  end.

(** What the run reaches: the early returns, or the three phases with the
    partitions after clustering, after refinement and the balancing loop. *)
Inductive hybrid_run :=
  | EarlyReturn (ps : list (gset nat))
  | ThreePhases (ps_spectral ps_kl : list (gset nat)) (r : io_outcome).

Section Pipeline.

(** [SpectralClustering(n_clusters=k, assign_labels='kmeans',
    affinity='precomputed', random_state=42).fit_predict(adj_matrix)]:
    one label per node of [graph.nodes()]. *)
Variable spectral_labels : graph -> nat -> list nat.
(** [nx.community.kernighan_lin_bisection(graph.subgraph(S).to_undirected(),
    max_iter=kl_max_iter, seed=42)] *)
Variable kl_bisection : graph -> gset nat -> nat -> gset nat * gset nat.
(** [list(adj_pairs)]: iteration order of a Python set of index pairs *)
Variable pair_order : list (nat * nat) -> list (nat * nat).
Variable node_order : list nat -> list nat.
Variable idx_order : list nat -> list nat.

(** Lines 148-162: refine each adjacent pair in [adjacent_pairs] order. *)
Fixpoint refine_pairs (g : graph) (kl_max_iter : nat) (ps : list (gset nat))
    (pairs : list (nat * nat)) : option (list (gset nat)) :=
  match pairs with
  | [] => Some ps
  | (i, j) :: rest =>
      pA ← ps !! i;
      pB ← ps !! j;
      let r := kl_bisection g (pA ∪ pB) kl_max_iter in
      let ps1 := <[i := r.1]> ps in
      if decide (j < length ps1) then refine_pairs g kl_max_iter (<[j := r.2]> ps1) rest
      else None
  end.

Definition hybrid_stages (g : graph) (target_partition_size kl_max_iter : nat)
    (io_balance_alpha : Q) : option hybrid_run :=
  let num_nodes := length (g_nodes g) in
  if decide (num_nodes = 0) then Some (EarlyReturn [])
  else if decide (target_partition_size = 0) then None
  else
    let k := ceil_div num_nodes target_partition_size in
    if decide (k < 2) then Some (EarlyReturn [list_to_set (g_nodes g)])
    else
      ps0 ← assign_labels (replicate k ∅) (g_nodes g) (spectral_labels g k);
      let adjacent_pairs := pair_order (elements (find_adjacent_partitions g ps0)) in
      ps1 ← refine_pairs g kl_max_iter ps0 adjacent_pairs;
      r ← io_balance node_order idx_order g io_balance_alpha ps1;
      Some (ThreePhases ps0 ps1 r).

(** [final_partitions = [p for p in partitions if p]] *)
Definition hybrid_partitioner (g : graph) (target_partition_size kl_max_iter : nat)
    (io_balance_alpha : Q) : option (list (gset nat)) :=
  run ← hybrid_stages g target_partition_size kl_max_iter io_balance_alpha;
  match run with
  | EarlyReturn ps => Some ps
  | ThreePhases _ _ r => Some (filter (fun p => p <> ∅) (io_parts r))
  end.

End Pipeline.

(** ** Properties of partition lists *)

(** node [x] is in [partitions[i]] *)
Definition in_part (ps : list (gset nat)) (i x : nat) : Prop :=
  exists P, ps !! i = Some P /\ x ∈ P.

(** no two partitions share a node *)
Definition pairwise_disjoint (ps : list (gset nat)) : Prop :=
  forall i j x, in_part ps i x -> in_part ps j x -> i = j.

(** the union of the partitions is the node list [U] *)
Definition covers (U : list nat) (ps : list (gset nat)) : Prop :=
  forall x, x ∈ U <-> exists i, in_part ps i x.

Definition all_nonempty (ps : list (gset nat)) : Prop :=
  forall P, P ∈ ps -> P <> ∅.

(** [node_to_partition[n] == i] exactly when [n in partitions[i]] *)
Definition ntp_consistent (ps : list (gset nat)) (ntp : gmap nat nat) : Prop :=
  forall n i, ntp !! n = Some i <-> in_part ps i n.

Definition balancing_invariant (ps : list (gset nat)) (ntp : gmap nat nat) : Prop :=
  pairwise_disjoint ps /\ ntp_consistent ps ntp.

(** every edge endpoint lies in some partition *)
Definition edges_covered (g : graph) (ps : list (gset nat)) : Prop :=
  forall u v, (u, v) ∈ g_edges g -> (exists i, in_part ps i u) /\ (exists j, in_part ps j v).

(** A move the balancing pass evaluates: a boundary node [n] in partition
    [c] and a partition [t <> c] of one of its neighbours, with its
    [total_gain]. *)
Definition candidate_move (g : graph) (alpha : Q) (ps : list (gset nat))
    (ntp : gmap nat nat) (n t : nat) (tg : Q) : Prop :=
  n ∈ boundary_nodes g ntp /\
  exists c io, ntp !! n = Some c /\ t ∈ neighbor_partitions g ntp n /\ t <> c /\
    io_gain g ps n c t = Some io /\ tg = total_gain alpha (cut_gain g ntp n c t) io.

Definition self_loops (g : graph) (n : nat) : nat :=
  length (filter (fun e => e = (n, n)) (g_edges g)).

(** an iteration order of a Python set lists each element once *)
Definition is_iteration_order {A} (ord : list A -> list A) : Prop :=
  forall l, ord l ≡ₚ l.

(** kernighan_lin_bisection returns a bipartition of the subgraph's nodes *)
Definition kl_contract (kl : graph -> gset nat -> nat -> gset nat * gset nat) : Prop :=
  forall g S it, (kl g S it).1 ∪ (kl g S it).2 = S /\ (kl g S it).1 ## (kl g S it).2.

(** the best move found so far has a gain of at least [q] *)
Definition dominates (b : option move) (q : Q) : Prop :=
  match b with
  | Some (_, _, bg) => Qle q bg
  | None => False
  end.

(** A decision procedure for [pairwise_disjoint] on concrete lists. *)
Fixpoint disjoint_listb (ps : list (gset nat)) : bool :=
  match ps with
  | [] => true
  | p :: ps' => bool_decide (p ## ⋃ ps') && disjoint_listb ps'
  end.

(** Every move a balancing pass evaluates, listed node by node. *)
Definition all_candidates (g : graph) (alpha : Q) (ps : list (gset nat))
    (ntp : gmap nat nat) : list move :=
  elements (boundary_nodes g ntp) ≫= fun n =>
    match ntp !! n with
    | Some c =>
        omap (fun t => if decide (t = c) then None
                       else io ← io_gain g ps n c t;
                            Some (n, t, total_gain alpha (cut_gain g ntp n c t) io))
             (elements (neighbor_partitions g ntp n))
    | None => []
    end.

(** A decision procedure for [edges_covered] on concrete graphs. *)
Definition edges_coveredb (g : graph) (ps : list (gset nat)) : bool :=
  forallb (fun e : nat * nat => bool_decide (e.1 ∈ ⋃ ps) && bool_decide (e.2 ∈ ⋃ ps))
    (g_edges g).

(** A small run: the graph [1 -> 2], [3 -> 4], the clustering labels
    [[0; 1; 0; 1]] and a bisection that puts the nodes 1 and 3 on one side. *)
Definition ex_graph : graph := mk_graph [1; 2; 3; 4] [(1, 2); (3, 4)].

Definition ex_labels (_ : graph) (_ : nat) : list nat := [0; 1; 0; 1].

Definition ex_kl (_ : graph) (S : gset nat) (_ : nat) : gset nat * gset nat :=
  (S ∩ {[1; 3]}, S ∖ {[1; 3]}).


(** sum of [f x] over a list, in Z *)
Definition sumZ_with {A} (f : A -> Z) (l : list A) : Z :=
  foldr (fun x s => (f x + s)%Z) 0%Z l.

(** some partition holds both [u] and [v] *)
Definition same_partb (ps : list (gset nat)) (u v : nat) : bool :=
  existsb (fun P => bool_decide (u ∈ P) && bool_decide (v ∈ P)) ps.

(** some partition holds [u] *)
Definition placedb (ps : list (gset nat)) (u : nat) : bool :=
  existsb (fun P => bool_decide (u ∈ P)) ps.

(** an edge no partition holds whole, with at least one endpoint placed *)
Definition cut_edgeb (ps : list (gset nat)) (e : nat * nat) : bool :=
  negb (same_partb ps e.1 e.2) && (placedb ps e.1 || placedb ps e.2).

(** [graph.reverse()]: the same nodes, every edge turned around *)
Definition reverse_graph (g : graph) : graph :=
  mk_graph (g_nodes g) (map (fun e => (e.2, e.1)) (g_edges g)).

(** ** A run decided by tie-breaking *)










(** * Proofs *)

(** ** Partition lists *)

Lemma in_part_insert (ps : list (gset nat)) i X j x :
  i < length ps ->
  in_part (<[i := X]> ps) j x <-> (j = i /\ x ∈ X) \/ (j <> i /\ in_part ps j x).
Proof.
  intros Hi. unfold in_part. destruct (decide (j = i)) as [->|Hne].
  - rewrite list_lookup_insert_eq by done. naive_solver.
  - rewrite list_lookup_insert_ne by congruence. naive_solver.
Qed.

Lemma in_part_length (ps : list (gset nat)) i x : in_part ps i x -> i < length ps.
Proof. intros (P & HP & _). eapply lookup_lt_Some; eauto. Qed.

Lemma in_part_replicate k i x : ~ in_part (replicate k ∅) i x.
Proof.
  intros (P & HP & Hx). apply lookup_replicate in HP as [-> _]. set_solver.
Qed.

Lemma in_part_cons (p : gset nat) ps i x :
  in_part (p :: ps) i x <-> (i = 0 /\ x ∈ p) \/ (exists i', i = S i' /\ in_part ps i' x).
Proof.
  unfold in_part. destruct i as [|i']; simpl; naive_solver.
Qed.

Lemma pairwise_disjoint_cons (p : gset nat) ps :
  pairwise_disjoint (p :: ps) <->
  (forall x, x ∈ p -> ~ exists i, in_part ps i x) /\ pairwise_disjoint ps.
Proof.
  unfold pairwise_disjoint. split.
  - intros H. split.
    + intros x Hx [i Hi]. assert (0 = S i) by (apply (H 0 (S i) x);
        apply in_part_cons; naive_solver). lia.
    + intros i j x Hi Hj. assert (S i = S j) by (apply (H (S i) (S j) x);
        apply in_part_cons; naive_solver). lia.
  - intros [H1 H2] i j x Hi Hj. apply in_part_cons in Hi, Hj.
    destruct Hi as [[-> Hi]|(i' & -> & Hi)], Hj as [[-> Hj]|(j' & -> & Hj)].
    + done.
    + exfalso. eapply H1; eauto.
    + exfalso. eapply H1; eauto.
    + f_equal. eauto.
Qed.

Lemma in_part_filter (f : gset nat -> Prop) `{!forall P, Decision (f P)} ps i x :
  in_part (filter f ps) i x -> exists j, in_part ps j x.
Proof.
  intros (P & HP & Hx). apply list_elem_of_lookup_2 in HP.
  apply list_elem_of_filter in HP as [_ HP]. apply list_elem_of_lookup_1 in HP as [j Hj].
  exists j, P. done.
Qed.

Lemma in_part_filter_2 (f : gset nat -> Prop) `{!forall P, Decision (f P)} ps j x :
  in_part ps j x -> (forall P, ps !! j = Some P -> f P) -> exists i, in_part (filter f ps) i x.
Proof.
  intros (P & HP & Hx) Hf. assert (P ∈ filter f ps) as HPf.
  { apply list_elem_of_filter. split; [eauto|]. by eapply list_elem_of_lookup_2. }
  apply list_elem_of_lookup_1 in HPf as [i Hi]. exists i, P. done.
Qed.

Lemma pairwise_disjoint_filter (f : gset nat -> Prop) `{!forall P, Decision (f P)} ps :
  pairwise_disjoint ps -> pairwise_disjoint (filter f ps).
Proof.
  induction ps as [|p ps IH]; [done|].
  intros [H1 H2]%pairwise_disjoint_cons. rewrite filter_cons. case_decide.
  - apply pairwise_disjoint_cons. split; [|by apply IH].
    intros x Hx [i Hi]. apply in_part_filter in Hi. eapply H1; eauto.
  - by apply IH.
Qed.

(** ** The node -> partition map built by the comprehension *)

Lemma build_ntp_from_None k ps n :
  build_ntp_from k ps !! n = None <-> ~ exists i, in_part ps i n.
Proof.
  revert k. induction ps as [|p ps IH]; intros k; simpl.
  - rewrite lookup_empty. split; [|done]. intros _ (i & P & HP & _). done.
  - rewrite lookup_union_None, IH, lookup_gset_to_gmap_None. split.
    + intros [H1 H2] [i Hi]. apply in_part_cons in Hi as [[_ Hi]|(i' & _ & Hi)]; eauto.
    + intros H. split; intros ?; apply H.
      * destruct H0 as [i Hi]. exists (S i). apply in_part_cons. eauto.
      * exists 0. apply in_part_cons. eauto.
Qed.

Lemma build_ntp_from_Some k ps n i :
  pairwise_disjoint ps ->
  build_ntp_from k ps !! n = Some i <-> k <= i /\ in_part ps (i - k) n.
Proof.
  revert k i. induction ps as [|p ps IH]; intros k i Hd; simpl.
  - rewrite lookup_empty. split; [done|]. intros (_ & P & HP & _). done.
  - apply pairwise_disjoint_cons in Hd as [Hd1 Hd2].
    rewrite lookup_union_Some_raw, lookup_gset_to_gmap_Some, IH by done. split.
    + intros [[Hk Hin]|[_ [Hn <-]]].
      * split; [lia|]. apply in_part_cons. right. exists (i - S k). split; [lia|done].
      * split; [lia|]. apply in_part_cons. left. split; [lia|done].
    + intros [Hk Hin]. apply in_part_cons in Hin as [[Hi Hn]|(i' & Hi & Hin)].
      * right. split; [|split; [done|lia]].
        apply build_ntp_from_None. eapply Hd1; eauto.
      * left. split; [lia|]. by replace (i - S k) with i' by lia.
Qed.

Lemma build_ntp_consistent ps :
  pairwise_disjoint ps -> ntp_consistent ps (build_ntp ps).
Proof.
  intros Hd n i. unfold build_ntp. rewrite build_ntp_from_Some by done.
  rewrite Nat.sub_0_r. split; [by intros [_ ?] | intros ?; split; [lia | done]].
Qed.

(** A consistent map is the one the comprehension rebuilds. *)
Lemma consistent_build_ntp ps ntp :
  balancing_invariant ps ntp -> build_ntp ps = ntp.
Proof.
  intros [Hd Hc]. apply map_eq. intros n.
  destruct (ntp !! n) as [i|] eqn:E.
  - apply build_ntp_consistent; [done|]. by apply Hc.
  - apply build_ntp_from_None. intros [i Hi]. apply Hc in Hi. congruence.
Qed.

(** ** Applying a move *)

Lemma apply_move_inv ps ntp n t st :
  apply_move ps ntp n t = Some st ->
  exists c pc pt, ntp !! n = Some c /\ ps !! c = Some pc /\ n ∈ pc /\
    <[c := pc ∖ {[n]}]> ps !! t = Some pt /\
    st = (<[t := pt ∪ {[n]}]> (<[c := pc ∖ {[n]}]> ps), <[n := t]> ntp).
Proof.
  unfold apply_move. intros H.
  destruct (ntp !! n) as [c|] eqn:Hc; [|done]. simpl in H.
  destruct (ps !! c) as [pc|] eqn:Hpc; [|done]. simpl in H.
  case_decide as Hn; [|done].
  destruct (<[c := pc ∖ {[n]}]> ps !! t) as [pt|] eqn:Hpt; [|done]. simpl in H.
  injection H as <-. eauto 10.
Qed.

Lemma apply_move_length ps ntp n t st :
  apply_move ps ntp n t = Some st -> length st.1 = length ps.
Proof.
  intros (c & pc & pt & _ & _ & _ & _ & ->)%apply_move_inv. simpl.
  by rewrite !length_insert.
Qed.

(** After a move, [n] is exactly in the target partition and every other
    node stays where it was. *)
Lemma in_part_apply_move ps ntp n t st i x :
  pairwise_disjoint ps ->
  apply_move ps ntp n t = Some st ->
  in_part st.1 i x <-> (x = n /\ i = t) \/ (x <> n /\ in_part ps i x).
Proof.
  intros Hd (c & pc & pt & Hc & Hpc & Hn & Hpt & ->)%apply_move_inv. simpl.
  assert (Hcl : c < length ps) by (eapply lookup_lt_Some; eauto).
  assert (Htl : t < length (<[c := pc ∖ {[n]}]> ps)) by (eapply lookup_lt_Some; eauto).
  assert (Hnc : in_part ps c n) by (exists pc; done).
  assert (Hpt' : forall y, y ∈ pt <-> in_part (<[c := pc ∖ {[n]}]> ps) t y).
  { intros y. unfold in_part. rewrite Hpt. naive_solver. }
  rewrite in_part_insert by done. rewrite !in_part_insert by done.
  split.
  - intros [[-> Hx]|[Hit [[-> Hx]|[Hic Hx]]]].
    + apply elem_of_union in Hx as [Hx|Hx%elem_of_singleton]; [|by left].
      apply Hpt' in Hx. rewrite in_part_insert in Hx by done.
      destruct Hx as [[-> Hx]|[Htc Hx]]; right.
      * split; [set_solver|]. exists pc. set_solver.
      * split; [|done]. intros ->. apply Htc. eapply Hd; eauto.
    + right. split; [set_solver|]. exists pc. set_solver.
    + right. split; [|done]. intros ->. apply Hic. eapply Hd; eauto.
  - intros [[-> ->]|[Hxn Hx]].
    + left. split; [done|]. set_solver.
    + destruct (decide (i = t)) as [->|Hit].
      * left. split; [done|]. apply elem_of_union_l, Hpt'.
        rewrite in_part_insert by done.
        destruct (decide (t = c)) as [->|Htc]; [|by right].
        left. split; [done|]. destruct Hx as (P & HP & HxP).
        rewrite Hpc in HP. injection HP as <-. set_solver.
      * right. split; [done|].
        destruct (decide (i = c)) as [->|Hic]; [|by right].
        left. split; [done|]. destruct Hx as (P & HP & HxP).
        rewrite Hpc in HP. injection HP as <-. set_solver.
Qed.

Lemma apply_move_invariant ps ntp n t st :
  balancing_invariant ps ntp ->
  apply_move ps ntp n t = Some st ->
  balancing_invariant st.1 st.2.
Proof.
  intros [Hd Hc] Hm. pose proof (fun i x => in_part_apply_move ps ntp n t st i x Hd Hm) as Hip.
  apply apply_move_inv in Hm as Hm'.
  destruct Hm' as (c & pc & pt & _ & _ & _ & _ & Hst). split.
  - intros i j x Hi Hj. apply Hip in Hi, Hj.
    destruct Hi as [[Hx ->]|[Hx Hi]], Hj as [[Hx2 ->]|[Hx2 Hj]]; try done; try congruence.
    eapply Hd; eauto.
  - intros m i. rewrite Hip. rewrite Hst. simpl.
    destruct (decide (m = n)) as [->|Hmn].
    + rewrite lookup_insert_eq. naive_solver.
    + rewrite lookup_insert_ne by congruence. rewrite (Hc m i). naive_solver.
Qed.

Lemma apply_move_covers ps ntp n t st x :
  pairwise_disjoint ps ->
  apply_move ps ntp n t = Some st ->
  (exists i, in_part st.1 i x) <-> (exists i, in_part ps i x).
Proof.
  intros Hd Hm. pose proof (fun i x => in_part_apply_move ps ntp n t st i x Hd Hm) as Hip.
  apply apply_move_inv in Hm as (c & pc & pt & _ & Hpc & Hn & _ & _).
  split.
  - intros [i Hi]. apply Hip in Hi as [[-> _]|[_ Hi]]; [|eauto].
    exists c, pc. done.
  - intros [i Hi]. destruct (decide (x = n)) as [->|Hxn].
    + exists t. apply Hip. by left.
    + exists i. apply Hip. by right.
Qed.

(** ** The balancing loop *)

(** Case analysis on one iteration of [io_loop]. *)
Ltac io_loop_step H :=
  simpl in H;
  repeat (match type of H with
  | context [decide (?P)] => let Hd := fresh "Hdec" in destruct (decide P) as [Hd|Hd]
  | context [Qlt_le_dec ?a ?b] => let Hq := fresh "Hq" in destruct (Qlt_le_dec a b) as [Hq|Hq]
  | context [select_move ?a ?b ?c ?d ?e ?f] =>
      let Hs := fresh "Hsel" in destruct (select_move a b c d e f) as [[[[?n ?t] ?tg]|]|] eqn:Hs
  | context [apply_move ?a ?b ?c ?d] =>
      let Hm := fresh "Hmove" in destruct (apply_move a b c d) as [?st|] eqn:Hm
  | context [io_loop ?a ?b ?c ?d ?e ?f ?h] =>
      let Hl := fresh "Hloop" in destruct (io_loop a b c d e f h) as [?r|] eqn:Hl
  end; simpl in H); try discriminate H; try (injection H as <-).

Lemma io_loop_counts node_order idx_order g alpha fuel ps ntp r :
  io_loop node_order idx_order g alpha fuel ps ntp = Some r ->
  io_passes r <= fuel /\ length (io_trace r) <= io_passes r.
Proof.
  revert ps ntp r. induction fuel as [|f IH]; intros ps ntp r H.
  - simpl in H. injection H as <-. simpl. lia.
  - io_loop_step H; simpl; try lia.
    destruct (IH _ _ _ Hloop). lia.
Qed.

Lemma io_loop_invariant node_order idx_order g alpha fuel ps ntp r :
  balancing_invariant ps ntp ->
  io_loop node_order idx_order g alpha fuel ps ntp = Some r ->
  balancing_invariant (io_parts r) (io_ntp r) /\
  Forall (fun st => balancing_invariant st.1 st.2) (io_trace r) /\
  (forall x, (exists i, in_part (io_parts r) i x) <-> (exists i, in_part ps i x)) /\
  length (io_parts r) = length ps.
Proof.
  revert ps ntp r. induction fuel as [|f IH]; intros ps ntp r Hinv H.
  - simpl in H. injection H as <-. simpl. done.
  - io_loop_step H; simpl; try done.
    pose proof (apply_move_invariant _ _ _ _ _ Hinv Hmove) as Hinv'.
    destruct (IH _ _ _ Hinv' Hloop) as (H1 & H2 & H3 & H4).
    split; [done|]. split; [by constructor|]. split.
    + intros x. rewrite H3. eapply apply_move_covers; [apply Hinv|done].
    + rewrite H4. by eapply apply_move_length.
Qed.

(** ** The adjacency finder *)

Lemma elem_of_enumerate {A} k (l : list A) i x :
  (i, x) ∈ enumerate k l <-> k <= i /\ l !! (i - k) = Some x.
Proof.
  revert k. induction l as [|y l IH]; intros k; simpl.
  - split; [intros Hx; by apply elem_of_nil in Hx|]. intros [_ Hl]. done.
  - rewrite elem_of_cons, IH. split.
    + intros [Heq|[Hk Hl]].
      * injection Heq as -> ->. rewrite Nat.sub_diag. split; [lia|done].
      * split; [lia|]. by replace (i - k) with (S (i - S k)) by lia.
    + intros [Hk Hl]. destruct (decide (i = k)) as [->|Hik].
      * left. rewrite Nat.sub_diag in Hl. simpl in Hl. congruence.
      * right. split; [lia|]. by replace (i - k) with (S (i - S k)) in Hl by lia.
Qed.

Lemma elem_of_list_prod_iff {A B} (l1 : list A) (l2 : list B) x y :
  (x, y) ∈ list_prod l1 l2 <-> x ∈ l1 /\ y ∈ l2.
Proof. rewrite !list_elem_of_In. apply in_prod_iff. Qed.

Lemma any_edge_between_true g uvs :
  (any_edge_between g uvs).1 = true <->
  exists u v, (u, v) ∈ uvs /\ ((u, v) ∈ g_edges g \/ (v, u) ∈ g_edges g).
Proof.
  induction uvs as [|[u v] uvs IH]; simpl.
  - split; [done|]. intros (u & v & Hin & _). by apply elem_of_nil in Hin.
  - unfold has_edge. case_bool_decide as H1; [|case_bool_decide as H2]; simpl.
    + split; [|done]. intros _. exists u, v. split; [left|]; auto.
    + split; [|done]. intros _. exists u, v. split; [left|]; auto.
    + rewrite IH. split.
      * intros (u' & v' & Hin & He). exists u', v'. split; [by right|done].
      * intros (u' & v' & Hin & He). apply elem_of_cons in Hin as [Heq|Hin].
        -- injection Heq as -> ->. tauto.
        -- eauto.
Qed.

Lemma foldl_adjacent_step g acc l x :
  x ∈ (foldl (adjacent_step g) acc l).1 <->
  x ∈ acc.1 \/ exists i A j B, ((i, A), (j, B)) ∈ l /\ i < j /\ x = (i, j) /\
    (any_edge_between g (list_prod (elements A) (elements B))).1 = true.
Proof.
  revert acc. induction l as [|[[i A] [j B]] l IH]; intros acc; simpl.
  - split; [by left|]. intros [?|(i & A & j & B & Hin & _)]; [done|by apply elem_of_nil in Hin].
  - rewrite IH. unfold adjacent_step. case_decide as Hji; simpl.
    + split.
      * intros [?|(i' & A' & j' & B' & Hin & Hr)]; [by left|right].
        exists i', A', j', B'. split; [by right|done].
      * intros [?|(i' & A' & j' & B' & Hin & Hlt & Hr)]; [by left|].
        apply elem_of_cons in Hin as [Heq|Hin].
        -- injection Heq as -> -> -> ->. lia.
        -- right. eauto 10.
    + destruct (any_edge_between g (list_prod (elements A) (elements B))).1 eqn:Hab; simpl.
      * rewrite elem_of_union, elem_of_singleton. split.
        -- intros [[->|?]|(i' & A' & j' & B' & Hin & Hr)]; [|by left|].
           ++ right. exists i, A, j, B. split; [left|split; [lia|]]; auto.
           ++ right. exists i', A', j', B'. split; [by right|done].
        -- intros [?|(i' & A' & j' & B' & Hin & Hlt & -> & Hr)]; [by left; right|].
           apply elem_of_cons in Hin as [Heq|Hin].
           ++ injection Heq as -> -> -> ->. left. by left.
           ++ right. eauto 10.
      * split.
        -- intros [?|(i' & A' & j' & B' & Hin & Hr)]; [by left|right].
           exists i', A', j', B'. split; [by right|done].
        -- intros [?|(i' & A' & j' & B' & Hin & Hlt & -> & Hr)]; [by left|].
           apply elem_of_cons in Hin as [Heq|Hin].
           ++ injection Heq as -> -> -> ->. congruence.
           ++ right. eauto 10.
Qed.

(** The pairs [_find_adjacent_partitions] records: [i < j] and some edge,
    in either direction, between a node of [partitions[i]] and a node of
    [partitions[j]]. *)
Lemma elem_of_find_adjacent_partitions g ps i j :
  (i, j) ∈ find_adjacent_partitions g ps <->
  i < j /\ exists A B u v, ps !! i = Some A /\ ps !! j = Some B /\ u ∈ A /\ v ∈ B /\
    ((u, v) ∈ g_edges g \/ (v, u) ∈ g_edges g).
Proof.
  unfold find_adjacent_partitions, find_adjacent_scan.
  rewrite foldl_adjacent_step. simpl. split.
  - intros [Hin|(i' & A & j' & B & Hin & Hlt & Heq & Hr)]; [set_solver|].
    injection Heq as <- <-.
    apply elem_of_list_prod_iff in Hin as [HA HB].
    apply elem_of_enumerate in HA as [_ HA], HB as [_ HB]. rewrite Nat.sub_0_r in HA, HB.
    apply any_edge_between_true in Hr as (u & v & Huv & He).
    apply elem_of_list_prod_iff in Huv as [Hu Hv]. rewrite elem_of_elements in Hu, Hv.
    split; [done|]. exists A, B, u, v. done.
  - intros [Hlt (A & B & u & v & HA & HB & Hu & Hv & He)]. right.
    exists i, A, j, B. split; [|split; [done|split; [done|]]].
    + apply elem_of_list_prod_iff. rewrite !elem_of_enumerate, !Nat.sub_0_r. split; split; auto with arith.
    + apply any_edge_between_true. exists u, v. split; [|done].
      apply elem_of_list_prod_iff. by rewrite !elem_of_elements.
Qed.

Lemma elem_of_edge_pass_step ntp acc u v x :
  x ∈ edge_pass_step ntp acc (u, v) <->
  x ∈ acc \/ exists i j, ntp !! u = Some i /\ ntp !! v = Some j /\
    i <> j /\ x = (Nat.min i j, Nat.max i j).
Proof.
  unfold edge_pass_step. simpl.
  destruct (ntp !! u) as [i|], (ntp !! v) as [j|]; [case_decide|..]; set_solver.
Qed.

Lemma foldl_edge_pass ntp acc E x :
  x ∈ foldl (edge_pass_step ntp) acc E <->
  x ∈ acc \/ exists u v i j, (u, v) ∈ E /\ ntp !! u = Some i /\ ntp !! v = Some j /\
    i <> j /\ x = (Nat.min i j, Nat.max i j).
Proof.
  revert acc. induction E as [|[u v] E IH]; intros acc; simpl.
  - split; [by left|]. intros [?|(u & v & i & j & Hin & _)]; [done|by apply elem_of_nil in Hin].
  - rewrite IH, elem_of_edge_pass_step. split.
    + intros [[?|(i & j & H)]|(u' & v' & i & j & Hin & H)]; [by left|right..].
      * exists u, v, i, j. split; [left|done].
      * exists u', v', i, j. split; [by right|done].
    + intros [?|(u' & v' & i & j & Hin & H)]; [by left; left|].
      apply elem_of_cons in Hin as [Heq|Hin].
      * injection Heq as -> ->. left. right. eauto.
      * right. eauto 10.
Qed.

Lemma elem_of_adjacent_by_edge_pass g ps x :
  x ∈ adjacent_by_edge_pass g ps <->
  exists u v i j, (u, v) ∈ g_edges g /\ build_ntp ps !! u = Some i /\
    build_ntp ps !! v = Some j /\ i <> j /\ x = (Nat.min i j, Nat.max i j).
Proof.
  unfold adjacent_by_edge_pass. rewrite foldl_edge_pass. set_solver.
Qed.

Lemma elem_of_union_list_in_part (ps : list (gset nat)) x :
  x ∈ ⋃ ps <-> exists i, in_part ps i x.
Proof.
  rewrite elem_of_union_list. split.
  - intros (X & HX & Hx). apply list_elem_of_lookup_1 in HX as [i Hi]. exists i, X. done.
  - intros (i & X & HX & Hx). exists X. split; [|done]. by eapply list_elem_of_lookup_2.
Qed.

Lemma disjoint_listb_sound ps : disjoint_listb ps = true -> pairwise_disjoint ps.
Proof.
  induction ps as [|p ps IH]; simpl.
  - intros _ i j x (P & HP & _). done.
  - intros [Hp Hps]%andb_prop. apply bool_decide_eq_true in Hp.
    apply pairwise_disjoint_cons. split; [|by apply IH].
    intros x Hx Hin. apply elem_of_union_list_in_part in Hin. set_solver.
Qed.

(** Without edges, every pair of nodes of every two partitions is
    tested in both directions. *)
Lemma any_edge_between_no_edges N uvs :
  any_edge_between (mk_graph N []) uvs = (false, 2 * length uvs).
Proof.
  induction uvs as [|[u v] uvs IH]; [done|]. cbn [any_edge_between].
  unfold has_edge. cbn [g_edges]. rewrite !bool_decide_eq_false_2 by (intros H; by apply elem_of_nil in H).
  rewrite IH. simpl. f_equal. lia.
Qed.

Lemma size_list_to_set_seq a m : length (elements (list_to_set (seq a m) : gset nat)) = m.
Proof.
  rewrite (Permutation_length (elements_list_to_set _ (NoDup_seq a m))). apply length_seq.
Qed.

(** C3 (corrected): [_find_adjacent_partitions] returns exactly the index
    pairs (i, j) with i < j such that an edge, in either direction, joins
    a node of partitions[i] to a node of partitions[j]; for pairwise
    disjoint partitions this is the set the single pass over the edges
    computes, as unordered pairs (min, max).  It obtains it from the
    cross product of the partitions' contents. *)
Theorem find_adjacent_partitions_exact g ps :
  (forall i j, (i, j) ∈ find_adjacent_partitions g ps <->
     i < j /\ exists A B u v, ps !! i = Some A /\ ps !! j = Some B /\ u ∈ A /\ v ∈ B /\
       ((u, v) ∈ g_edges g \/ (v, u) ∈ g_edges g)) /\
  (pairwise_disjoint ps -> find_adjacent_partitions g ps = adjacent_by_edge_pass g ps).
Proof.
  split; [intros i j; apply elem_of_find_adjacent_partitions|].
  intros Hd. pose proof (build_ntp_consistent ps Hd) as Hc.
  apply set_eq. intros [i j]. rewrite elem_of_find_adjacent_partitions.
  rewrite elem_of_adjacent_by_edge_pass. split.
  - intros [Hlt (A & B & u & v & HA & HB & Hu & Hv & He)].
    assert (Hiu : build_ntp ps !! u = Some i) by (apply Hc; exists A; done).
    assert (Hjv : build_ntp ps !! v = Some j) by (apply Hc; exists B; done).
    destruct He as [He|He].
    + exists u, v, i, j. split; [done|]. split; [done|]. split; [done|]. split; [lia|].
      f_equal; lia.
    + exists v, u, j, i. split; [done|]. split; [done|]. split; [done|]. split; [lia|].
      f_equal; lia.
  - intros (u & v & i' & j' & He & Hu & Hv & Hij & Heq).
    apply Hc in Hu as (A & HA & HuA), Hv as (B & HB & HvB). injection Heq as -> ->.
    destruct (decide (i' < j')) as [Hlt|Hge].
    + rewrite Nat.min_l, Nat.max_r by lia. split; [done|].
      exists A, B, u, v. tauto.
    + rewrite Nat.min_r, Nat.max_l by lia. split; [lia|].
      exists B, A, v, u. tauto.
Qed.

(** C3: the adjacency finder is not a single pass over the edges: on
    graphs without edges its number of [has_edge] calls is not bounded by
    any constant times (nodes + edges + 1). *)
Lemma find_adjacent_not_linear :
  ~ exists c, forall g ps,
      find_adjacent_cost g ps <= c * (length (g_nodes g) + length (g_edges g) + 1).
Proof.
  intros [c Hc].
  set (m := S c).
  specialize (Hc (mk_graph (seq 0 (m + m)) [])
                 [list_to_set (seq 0 m); list_to_set (seq m m)]).
  pose proof (size_list_to_set_seq 0 m) as HA. pose proof (size_list_to_set_seq m m) as HB.
  pose proof (length_seq (m + m) 0) as HN.
  remember (list_to_set (seq 0 m) : gset nat) as A.
  remember (list_to_set (seq m m) : gset nat) as B.
  remember (seq 0 (m + m)) as N.
  unfold find_adjacent_cost, find_adjacent_scan in Hc. simpl in Hc.
  rewrite any_edge_between_no_edges, length_prod, HA, HB, HN in Hc.
  simpl in Hc. subst m. nia.
Qed.

(** ** The search for the best move *)

Lemma dominates_mono (b : option move) q q' : Qle q' q -> dominates b q -> dominates b q'.
Proof. destruct b as [[[??]?]|]; simpl; [|done]. intros. eapply Qle_trans; eauto. Qed.

Lemma improves_step n t tg best :
  (forall q, dominates best q ->
     dominates (if improves tg best then Some (n, t, tg) else best) q) /\
  dominates (if improves tg best then Some (n, t, tg) else best) tg.
Proof.
  destruct best as [[[n' t'] b]|]; simpl.
  - destruct (Qlt_le_dec b tg) as [Hlt|Hle]; simpl.
    + split; [|apply Qle_refl]. intros q Hq. apply Qlt_le_weak. eapply Qle_lt_trans; eauto.
    + split; [done|]. done.
  - split; [done|]. apply Qle_refl.
Qed.

Lemma scan_targets_dominates g alpha ps ntp n c ts best best' :
  scan_targets g alpha ps ntp n c ts best = Some best' ->
  (forall q, dominates best q -> dominates best' q) /\
  (forall t io, t ∈ ts -> t <> c -> io_gain g ps n c t = Some io ->
     dominates best' (total_gain alpha (cut_gain g ntp n c t) io)).
Proof.
  revert best. induction ts as [|t ts IH]; intros best H; simpl in H.
  - injection H as <-. split; [done|]. intros t io Ht. by apply elem_of_nil in Ht.
  - case_decide as Htc.
    + destruct (IH _ H) as [H1 H2]. split; [done|].
      intros t' io Ht' Ht'c Hio. apply elem_of_cons in Ht' as [->|Ht']; [done|eauto].
    + destruct (io_gain g ps n c t) as [io|] eqn:Hio; [|done]. simpl in H.
      destruct (IH _ H) as [H1 H2].
      destruct (improves_step n t (total_gain alpha (cut_gain g ntp n c t) io) best) as [H3 H4].
      split; [eauto|].
      intros t' io' Ht' Ht'c Hio'. apply elem_of_cons in Ht' as [->|Ht']; [|eauto].
      rewrite Hio in Hio'. injection Hio' as <-. eauto.
Qed.

Lemma scan_nodes_dominates idx_order g alpha ps ntp ns best best' :
  scan_nodes idx_order g alpha ps ntp ns best = Some best' ->
  (forall q, dominates best q -> dominates best' q) /\
  (forall n c t io, n ∈ ns -> ntp !! n = Some c ->
     t ∈ idx_order (elements (neighbor_partitions g ntp n)) -> t <> c ->
     io_gain g ps n c t = Some io ->
     dominates best' (total_gain alpha (cut_gain g ntp n c t) io)).
Proof.
  revert best. induction ns as [|n ns IH]; intros best H; simpl in H.
  - injection H as <-. split; [done|]. intros n c t io Hn. by apply elem_of_nil in Hn.
  - destruct (ntp !! n) as [c|] eqn:Hc; [|done]. simpl in H.
    destruct (scan_targets g alpha ps ntp n c _ best) as [b1|] eqn:Hb1; [|done]. simpl in H.
    destruct (scan_targets_dominates _ _ _ _ _ _ _ _ _ Hb1) as [H1 H2].
    destruct (IH _ H) as [H3 H4]. split; [eauto|].
    intros n' c' t io Hn' Hc' Ht Htc Hio. apply elem_of_cons in Hn' as [->|Hn']; [|eauto].
    rewrite Hc in Hc'. injection Hc' as <-. eauto.
Qed.

(** The chosen move is one of the evaluated candidates (or the initial best). *)
Lemma scan_targets_origin g alpha ps ntp n c ts best m :
  scan_targets g alpha ps ntp n c ts best = Some (Some m) ->
  best = Some m \/
  exists t io, m = (n, t, total_gain alpha (cut_gain g ntp n c t) io) /\
    t ∈ ts /\ t <> c /\ io_gain g ps n c t = Some io.
Proof.
  revert best. induction ts as [|t ts IH]; intros best H; simpl in H.
  - injection H as ->. by left.
  - case_decide as Htc.
    + destruct (IH _ H) as [?|(t' & io & Hm & Ht & ?)]; [by left|].
      right. exists t', io. split; [done|]. split; [by right|done].
    + destruct (io_gain g ps n c t) as [io|] eqn:Hio; [|done]. simpl in H.
      destruct (IH _ H) as [Hb|(t' & io' & Hm & Ht & ?)].
      * destruct (improves _ best).
        -- right. exists t, io. injection Hb as <-. split; [done|]. split; [left|done].
        -- by left.
      * right. exists t', io'. split; [done|]. split; [by right|done].
Qed.

Lemma scan_nodes_origin idx_order g alpha ps ntp ns best m :
  scan_nodes idx_order g alpha ps ntp ns best = Some (Some m) ->
  best = Some m \/
  exists n c t io, m = (n, t, total_gain alpha (cut_gain g ntp n c t) io) /\
    n ∈ ns /\ ntp !! n = Some c /\
    t ∈ idx_order (elements (neighbor_partitions g ntp n)) /\ t <> c /\
    io_gain g ps n c t = Some io.
Proof.
  revert best. induction ns as [|n ns IH]; intros best H; simpl in H.
  - injection H as ->. by left.
  - destruct (ntp !! n) as [c|] eqn:Hc; [|done]. simpl in H.
    destruct (scan_targets g alpha ps ntp n c _ best) as [b1|] eqn:Hb1; [|done]. simpl in H.
    destruct (IH _ H) as [->|(n' & c' & t & io & Hm & Hn & ?)].
    + apply scan_targets_origin in Hb1 as [->|(t & io & Hm & Ht & Htc & Hio)]; [by left|].
      right. exists n, c, t, io. split; [done|]. split; [left|done].
    + right. exists n', c', t, io. split; [done|]. split; [by right|done].
Qed.

Lemma elem_of_boundary_nodes g ntp x :
  x ∈ boundary_nodes g ntp <->
  exists u v, (u, v) ∈ g_edges g /\ ntp !! u <> ntp !! v /\ (x = u \/ x = v).
Proof.
  unfold boundary_nodes. rewrite elem_of_list_to_set, list_elem_of_In, in_concat. split.
  - intros (l & Hl & Hx). apply in_map_iff in Hl as ([u v] & <- & He).
    simpl in Hx. case_decide as Hne; simpl in Hx; [|done].
    exists u, v. rewrite list_elem_of_In. destruct Hx as [<-|[<-|[]]]; auto.
  - intros (u & v & He & Hne & Hx). exists [u; v]. split.
    + apply in_map_iff. exists (u, v). simpl. rewrite decide_True by done.
      split; [done|]. by apply list_elem_of_In.
    + simpl. destruct Hx as [->| ->]; auto.
Qed.

Lemma elem_of_all_neighbors g n nb :
  nb ∈ all_neighbors g n <-> (nb, n) ∈ g_edges g \/ (n, nb) ∈ g_edges g.
Proof.
  unfold all_neighbors, predecessors, successors.
  rewrite elem_of_app, !list_elem_of_In, !in_map_iff. split.
  - intros [([u v] & <- & Hin)|([u v] & <- & Hin)];
      apply list_elem_of_In, list_elem_of_filter in Hin as [Heq Hin]; simpl in *; subst;
      [left|right]; by apply list_elem_of_In.
  - intros [Hin|Hin]; [left; exists (nb, n)|right; exists (n, nb)]; simpl;
      (split; [done|]); apply list_elem_of_In, list_elem_of_filter;
      (split; [done|by apply list_elem_of_In]).
Qed.

Lemma elem_of_neighbor_partitions g ntp n t :
  t ∈ neighbor_partitions g ntp n <-> exists nb, nb ∈ all_neighbors g n /\ ntp !! nb = Some t.
Proof. unfold neighbor_partitions. rewrite elem_of_list_to_set, list_elem_of_omap. done. Qed.

(** One pass: the selected move dominates every candidate, and is one. *)
Lemma select_move_spec node_order idx_order g alpha ps ntp best :
  is_iteration_order node_order -> is_iteration_order idx_order ->
  select_move node_order idx_order g alpha ps ntp = Some best ->
  (forall n t tg, candidate_move g alpha ps ntp n t tg -> dominates best tg) /\
  (forall n t tg, best = Some (n, t, tg) -> candidate_move g alpha ps ntp n t tg).
Proof.
  intros Hno Hio Hs. unfold select_move in Hs. split.
  - intros n t tg (Hn & c & io & Hc & Ht & Htc & Hio' & ->).
    eapply scan_nodes_dominates; [exact Hs|..|exact Htc|exact Hio']; [|done|].
    + rewrite (Hno _). by apply elem_of_elements.
    + rewrite (Hio _). by apply elem_of_elements.
  - intros n t tg ->. apply scan_nodes_origin in Hs as [?|(n' & c & t' & io & Hm & Hn & Hc & Ht & Htc & Hio')];
      [done|].
    injection Hm as -> -> ->.
    rewrite (Hno _), elem_of_elements in Hn. rewrite (Hio _), elem_of_elements in Ht.
    split; [done|]. exists c, io. done.
Qed.

Lemma io_loop_local_optimum node_order idx_order g alpha fuel ps ntp r :
  is_iteration_order node_order -> is_iteration_order idx_order ->
  io_loop node_order idx_order g alpha fuel ps ntp = Some r ->
  io_stop r <> PassCap ->
  forall n t tg, candidate_move g alpha (io_parts r) (io_ntp r) n t tg -> Qle tg 0.
Proof.
  intros Hno Hio. revert ps ntp r. induction fuel as [|f IH]; intros ps ntp r H Hstop.
  - simpl in H. injection H as <-. done.
  - io_loop_step H; simpl in *.
    + intros n t tg [Hn _]. rewrite Hdec in Hn. by apply not_elem_of_empty in Hn.
    + eapply IH; eauto.
    + intros n' t' tg' Hc. eapply select_move_spec in Hsel as [Hdom _]; [|done|done].
      apply Hdom in Hc. simpl in Hc. eapply Qle_trans; eauto.
    + intros n' t' tg' Hc. eapply select_move_spec in Hsel as [Hdom _]; [|done|done].
      apply Hdom in Hc. done.
Qed.

(** ** The loop raises no KeyError or IndexError on a consistent state *)

Lemma io_gain_some g ps n c t :
  c < length ps -> t < length ps -> is_Some (io_gain g ps n c t).
Proof.
  intros Hc Ht. unfold io_gain.
  destruct (lookup_lt_is_Some_2 ps c Hc) as [pc ->].
  destruct (lookup_lt_is_Some_2 ps t Ht) as [pt ->]. simpl. by eexists.
Qed.

Lemma scan_targets_some g alpha ps ntp n c ts best :
  (forall t, t ∈ ts -> t <> c -> is_Some (io_gain g ps n c t)) ->
  is_Some (scan_targets g alpha ps ntp n c ts best).
Proof.
  revert best. induction ts as [|t ts IH]; intros best H; simpl; [by eexists|].
  case_decide as Htc.
  - apply IH. intros t' Ht'. apply H. by right.
  - destruct (H t ltac:(by left) Htc) as [io ->]. simpl. apply IH.
    intros t' Ht'. apply H. by right.
Qed.

Lemma scan_nodes_some idx_order g alpha ps ntp ns best :
  (forall n, n ∈ ns -> exists c, ntp !! n = Some c /\
     forall t, t ∈ idx_order (elements (neighbor_partitions g ntp n)) -> t <> c ->
       is_Some (io_gain g ps n c t)) ->
  is_Some (scan_nodes idx_order g alpha ps ntp ns best).
Proof.
  revert best. induction ns as [|n ns IH]; intros best H; simpl; [by eexists|].
  destruct (H n ltac:(by left)) as (c & -> & Hc). simpl.
  destruct (scan_targets_some g alpha ps ntp n c
              (idx_order (elements (neighbor_partitions g ntp n))) best Hc) as [b ->].
  simpl. apply IH. intros n' Hn'. apply H. by right.
Qed.

Lemma select_move_some node_order idx_order g alpha ps ntp :
  is_iteration_order node_order -> is_iteration_order idx_order ->
  balancing_invariant ps ntp -> edges_covered g ps ->
  is_Some (select_move node_order idx_order g alpha ps ntp).
Proof.
  intros Hno Hio [Hd Hc] Hcov. unfold select_move. apply scan_nodes_some.
  intros n Hn. rewrite (Hno _), elem_of_elements, elem_of_boundary_nodes in Hn.
  destruct Hn as (u & v & He & _ & Hx).
  destruct (Hcov u v He) as [[i Hi] [j Hj]].
  assert (Hn : exists c, in_part ps c n) by (destruct Hx as [->| ->]; eauto).
  destruct Hn as [c Hnc]. exists c. split; [by apply Hc|].
  intros t Ht _. rewrite (Hio _), elem_of_elements, elem_of_neighbor_partitions in Ht.
  destruct Ht as (nb & _ & Hnb). apply Hc in Hnb.
  apply io_gain_some; eapply in_part_length; eauto.
Qed.

Lemma apply_move_some g alpha ps ntp n t tg :
  balancing_invariant ps ntp ->
  candidate_move g alpha ps ntp n t tg ->
  is_Some (apply_move ps ntp n t).
Proof.
  intros [Hd Hc] (_ & c & io & Hnc & Ht & _ & _ & _).
  apply elem_of_neighbor_partitions in Ht as (nb & _ & Hnb). apply Hc in Hnb.
  pose proof (in_part_length _ _ _ Hnb) as Htl.
  unfold apply_move. rewrite Hnc. simpl.
  apply Hc in Hnc as (pc & Hpc & Hn). rewrite Hpc. simpl.
  rewrite decide_True by done.
  destruct (lookup_lt_is_Some_2 (<[c := pc ∖ {[n]}]> ps) t) as [pt ->].
  { by rewrite length_insert. }
  simpl. by eexists.
Qed.

Lemma io_loop_some node_order idx_order g alpha fuel ps ntp :
  is_iteration_order node_order -> is_iteration_order idx_order ->
  balancing_invariant ps ntp -> edges_covered g ps ->
  is_Some (io_loop node_order idx_order g alpha fuel ps ntp).
Proof.
  intros Hno Hio. revert ps ntp. induction fuel as [|f IH]; intros ps ntp Hinv Hcov.
  - simpl. by eexists.
  - simpl. case_decide; [by eexists|].
    destruct (select_move_some node_order idx_order g alpha ps ntp Hno Hio Hinv Hcov)
      as [best Hsel].
    rewrite Hsel. simpl.
    destruct best as [[[n t] tg]|]; [|by eexists].
    destruct (Qlt_le_dec 0 tg); [|by eexists].
    eapply select_move_spec in Hsel as [_ Hcand]; [|done|done].
    destruct (apply_move_some g alpha ps ntp n t tg Hinv (Hcand n t tg eq_refl)) as [st Hm].
    rewrite Hm. simpl.
    assert (Hcov' : edges_covered g st.1).
    { intros u v He. destruct (Hcov u v He) as [Hu Hv].
      rewrite !(apply_move_covers ps ntp n t st) by (apply Hinv || done). done. }
    destruct (IH st.1 st.2 (apply_move_invariant _ _ _ _ _ Hinv Hm) Hcov') as [r ->].
    simpl. by eexists.
Qed.

(** ** Claims on the balancing phase *)

(** C5: when the balancing loop stops by its own condition (no boundary
    node, or a best [total_gain] that is not positive) rather than by the
    pass cap, no boundary node has a candidate move with a positive
    [total_gain] in the final state. *)
Theorem io_balance_local_optimum node_order idx_order g alpha ps r :
  is_iteration_order node_order -> is_iteration_order idx_order ->
  io_balance node_order idx_order g alpha ps = Some r ->
  io_stop r <> PassCap ->
  forall n t tg, candidate_move g alpha (io_parts r) (io_ntp r) n t tg -> Qle tg 0.
Proof.
  intros Hno Hio H Hstop. unfold io_balance in H.
  exact (io_loop_local_optimum _ _ _ _ _ _ _ _ Hno Hio H Hstop).
Qed.

(** C6: on partitions that are pairwise disjoint and hold every edge
    endpoint (as after the refinement phase), the balancing loop runs
    without error, executes at most [graph.number_of_nodes()] passes and
    applies at most one move per pass. *)
Theorem io_balance_bounded node_order idx_order g alpha ps :
  is_iteration_order node_order -> is_iteration_order idx_order ->
  pairwise_disjoint ps -> edges_covered g ps ->
  exists r, io_balance node_order idx_order g alpha ps = Some r /\
    io_passes r <= length (g_nodes g) /\ length (io_trace r) <= io_passes r.
Proof.
  intros Hno Hio Hd Hcov.
  assert (Hinv : balancing_invariant ps (build_ntp ps)) by (split; [done|by apply build_ntp_consistent]).
  destruct (io_loop_some node_order idx_order g alpha (length (g_nodes g)) ps (build_ntp ps)
              Hno Hio Hinv Hcov) as [r Hr].
  exists r. split; [done|]. by eapply io_loop_counts.
Qed.

(** C9: the map built from pairwise-disjoint partitions is consistent
    with them, and after every applied move (each state of the trace) and
    at the end, [node_to_partition] maps [n] to [i] exactly when [n] is
    in [partitions[i]], and the partitions stay pairwise disjoint. *)
Theorem io_balance_consistent node_order idx_order g alpha ps r :
  pairwise_disjoint ps ->
  io_balance node_order idx_order g alpha ps = Some r ->
  balancing_invariant ps (build_ntp ps) /\
  Forall (fun st => balancing_invariant st.1 st.2) (io_trace r) /\
  balancing_invariant (io_parts r) (io_ntp r).
Proof.
  intros Hd H.
  assert (Hinv : balancing_invariant ps (build_ntp ps)) by (split; [done|by apply build_ntp_consistent]).
  destruct (io_loop_invariant _ _ _ _ _ _ _ _ Hinv H) as (H1 & H2 & _). done.
Qed.

(** ** Cut size and cut_gain *)

Lemma sumZ_with_app {A} (f : A -> Z) l1 l2 :
  sumZ_with f (l1 ++ l2) = (sumZ_with f l1 + sumZ_with f l2)%Z.
Proof. induction l1 as [|x l1 IH]; unfold sumZ_with in *; simpl; lia. Qed.

Lemma sumZ_with_map {A B} (f : B -> Z) (h : A -> B) l :
  sumZ_with f (map h l) = sumZ_with (fun x => f (h x)) l.
Proof. induction l as [|x l IH]; [done|]. unfold sumZ_with in *. simpl. lia. Qed.

Lemma sumZ_with_filter {A} (P : A -> Prop) `{!forall x, Decision (P x)} (f : A -> Z) l :
  sumZ_with f (filter P l) = sumZ_with (fun x => if decide (P x) then f x else 0%Z) l.
Proof.
  induction l as [|x l IH]; [done|]. rewrite filter_cons.
  unfold sumZ_with in *. simpl. repeat case_decide; simpl; try contradiction; lia.
Qed.

Lemma length_filter_sumZ {A} (P : A -> Prop) `{!forall x, Decision (P x)} l :
  Z.of_nat (length (filter P l)) = sumZ_with (fun x => if decide (P x) then 1%Z else 0%Z) l.
Proof.
  induction l as [|x l IH]; [done|]. rewrite filter_cons.
  unfold sumZ_with in *. simpl. repeat case_decide; simpl; try contradiction; lia.
Qed.

Lemma foldl_cut_gain_step ntp c t acc l :
  foldl (cut_gain_step ntp c t) acc l = (acc + sumZ_with (cut_gain_step ntp c t 0%Z) l)%Z.
Proof.
  revert acc. induction l as [|x l IH]; intros acc; simpl; [lia|].
  rewrite IH. unfold sumZ_with, cut_gain_step. simpl.
  destruct (ntp !! x); [repeat case_decide|]; lia.
Qed.

Lemma cut_gain_sum g ntp n c t :
  cut_gain g ntp n c t =
  sumZ_with (fun e => ((if decide (e.2 = n) then cut_gain_step ntp c t 0%Z e.1 else 0)
                      + (if decide (e.1 = n) then cut_gain_step ntp c t 0%Z e.2 else 0))%Z)
            (g_edges g).
Proof.
  unfold cut_gain, all_neighbors, predecessors, successors.
  rewrite foldl_cut_gain_step, sumZ_with_app, !sumZ_with_map, !sumZ_with_filter.
  induction (g_edges g) as [|e E IH]; [done|]. unfold sumZ_with in *. simpl in *. lia.
Qed.

(** Contribution of one edge when [n] moves from [c] to [t]. *)
Lemma cut_edge_move ntp n c t u v :
  ntp !! n = Some c -> c <> t ->
  ((if decide (ntp !! u <> ntp !! v) then 1 else 0) =
   (if decide (<[n := t]> ntp !! u <> <[n := t]> ntp !! v) then 1 else 0)
   + ((if decide (v = n) then cut_gain_step ntp c t 0%Z u else 0)
      + (if decide (u = n) then cut_gain_step ntp c t 0%Z v else 0))
   + 2 * (if decide ((u, v) = (n, n)) then 1 else 0))%Z.
Proof.
  intros Hn Hct. unfold cut_gain_step.
  destruct (decide (u = n)) as [->|Hu], (decide (v = n)) as [->|Hv].
  - rewrite !lookup_insert_eq, Hn. repeat case_decide; simplify_eq; lia.
  - rewrite lookup_insert_eq, lookup_insert_ne by congruence. rewrite Hn.
    destruct (ntp !! v); repeat case_decide; simplify_eq; lia.
  - rewrite lookup_insert_eq, lookup_insert_ne by congruence. rewrite Hn.
    destruct (ntp !! u); repeat case_decide; simplify_eq; lia.
  - rewrite !lookup_insert_ne by congruence. repeat case_decide; simplify_eq; lia.
Qed.

(** Moving [n] from [c] to [t] lowers the cut by [cut_gain] plus two per
    self-loop on [n] (the loop stays internal but [cut_gain] counts it as
    two internal neighbours). *)
Lemma cut_of_move g ntp n c t :
  ntp !! n = Some c -> c <> t ->
  Z.of_nat (cut_of g ntp) =
  (Z.of_nat (cut_of g (<[n := t]> ntp)) + cut_gain g ntp n c t
   + 2 * Z.of_nat (self_loops g n))%Z.
Proof.
  intros Hn Hct. unfold cut_of, self_loops.
  rewrite cut_gain_sum, !length_filter_sumZ.
  induction (g_edges g) as [|[u v] E IH]; [done|]. unfold sumZ_with in *. simpl in *.
  pose proof (cut_edge_move ntp n c t u v Hn Hct). lia.
Qed.

Lemma total_gain_alpha0_pos cg io : Qlt 0 (total_gain 0 cg io) -> (0 < cg)%Z.
Proof. unfold total_gain, Qlt. simpl. lia. Qed.

(** With [alpha = 0] no applied move raises the cut. *)
Lemma io_loop_cut_le node_order idx_order g fuel ps ntp r :
  io_loop node_order idx_order g 0 fuel ps ntp = Some r ->
  cut_of g (io_ntp r) <= cut_of g ntp.
Proof.
  revert ps ntp r. induction fuel as [|f IH]; intros ps ntp r H.
  - simpl in H. injection H as <-. done.
  - io_loop_step H; simpl; try done.
    unfold select_move in Hsel.
    apply scan_nodes_origin in Hsel as [?|(n' & c & t' & io & Hm & _ & Hc & _ & Htc & _)];
      [done|].
    injection Hm as -> -> ->.
    apply apply_move_inv in Hmove as (c' & pc & pt & Hc' & _ & _ & _ & ->).
    rewrite Hc in Hc'. injection Hc' as <-.
    apply total_gain_alpha0_pos in Hq.
    pose proof (cut_of_move g ntp n' c t' Hc (not_eq_sym Htc)) as Hcut.
    specialize (IH _ _ _ Hloop). simpl in IH. lia.
Qed.

(** ** The clustering and refinement phases *)

Lemma in_part_add ps l p n i x :
  ps !! l = Some p ->
  in_part (<[l := p ∪ {[n]}]> ps) i x <-> in_part ps i x \/ (x = n /\ i = l).
Proof.
  intros Hl. assert (l < length ps) by (eapply lookup_lt_Some; eauto).
  rewrite in_part_insert by done. unfold in_part.
  destruct (decide (i = l)) as [->|Hne]; [rewrite Hl|]; set_solver.
Qed.

Lemma assign_labels_spec ps nodes labels ps' :
  assign_labels ps nodes labels = Some ps' ->
  NoDup nodes -> pairwise_disjoint ps ->
  (forall x, x ∈ nodes -> ~ exists i, in_part ps i x) ->
  pairwise_disjoint ps' /\
  (forall x, (exists i, in_part ps' i x) <-> (exists i, in_part ps i x) \/ x ∈ nodes) /\
  length ps' = length ps.
Proof.
  revert ps labels. induction nodes as [|n ns IH]; intros ps labels H Hnd Hd Hfresh.
  - assert (ps' = ps) as -> by (destruct labels; simpl in H; congruence).
    split; [done|]. split; [|done]. intros x. set_solver.
  - destruct labels as [|l ls]; [done|]. simpl in H.
    destruct (ps !! l) as [p|] eqn:Hl; [|done]. simpl in H.
    apply NoDup_cons in Hnd as [Hn Hnd].
    pose proof (fun i x => in_part_add ps l p n i x Hl) as Hadd.
    destruct (IH _ _ H Hnd) as (Hd' & Hcov & Hlen).
    + intros i j x Hi Hj. apply Hadd in Hi, Hj.
      destruct Hi as [Hi|[-> ->]], Hj as [Hj|[Hx ->]].
      * eapply Hd; eauto.
      * subst x. exfalso. eapply (Hfresh n); [left|eauto].
      * exfalso. eapply (Hfresh n); [left|eauto].
      * done.
    + intros x Hx [i Hi]. apply Hadd in Hi as [Hi|[-> _]].
      * eapply (Hfresh x); [by right|eauto].
      * done.
    + split; [done|]. split.
      * intros x. rewrite Hcov. setoid_rewrite Hadd. set_solver.
      * rewrite Hlen. apply length_insert.
Qed.

Lemma refine_pairs_spec kl g it ps pairs ps' :
  kl_contract kl ->
  (forall i j, (i, j) ∈ pairs -> i <> j) ->
  refine_pairs kl g it ps pairs = Some ps' ->
  pairwise_disjoint ps ->
  pairwise_disjoint ps' /\
  (forall x, (exists i, in_part ps' i x) <-> (exists i, in_part ps i x)) /\
  length ps' = length ps.
Proof.
  intros Hkl. revert ps. induction pairs as [|[i j] rest IH]; intros ps Hne H Hd.
  - simpl in H. injection H as <-. done.
  - simpl in H.
    destruct (ps !! i) as [pA|] eqn:HA; [|done]. simpl in H.
    destruct (ps !! j) as [pB|] eqn:HB; [|done]. simpl in H.
    case_decide as Hj; [|done].
    assert (Hij : i <> j) by (apply Hne; left).
    assert (Hi : i < length ps) by (eapply lookup_lt_Some; eauto).
    rewrite length_insert in Hj.
    destruct (Hkl g (pA ∪ pB) it) as [Hun Hdis].
    set (r := kl g (pA ∪ pB) it) in *.
    assert (Hip : forall k x, in_part (<[j := r.2]> (<[i := r.1]> ps)) k x <->
              (k = j /\ x ∈ r.2) \/ (k = i /\ x ∈ r.1) \/
              (k <> i /\ k <> j /\ in_part ps k x)).
    { intros k x. rewrite in_part_insert by (rewrite length_insert; done).
      rewrite in_part_insert by done. naive_solver. }
    destruct (IH (<[j := r.2]> (<[i := r.1]> ps))) as (Hd' & Hcov & Hlen); [by intros; apply Hne; right| done | |].
    + intros k l x Hk Hl. apply Hip in Hk, Hl.
      assert (in_part ps i x -> in_part ps j x -> False) as Hij'.
      { intros H1 H2. apply Hij. eapply Hd; eauto. }
      assert (forall k, in_part ps k x -> x ∈ pA ∪ pB -> k = i \/ k = j) as Hown.
      { intros k' Hk' Hx. apply elem_of_union in Hx as [Hx|Hx].
        - left. eapply Hd; [exact Hk'|]. by exists pA.
        - right. eapply Hd; [exact Hk'|]. by exists pB. }
      destruct Hk as [[-> Hx]|[[-> Hx]|(Hki & Hkj & Hk)]],
               Hl as [[-> Hy]|[[-> Hy]|(Hli & Hlj & Hl)]]; try done.
      * exfalso. set_solver.
      * exfalso. destruct (Hown l Hl) as [?|?]; [set_solver|done|done].
      * exfalso. set_solver.
      * exfalso. destruct (Hown l Hl) as [?|?]; [set_solver|done|done].
      * exfalso. destruct (Hown k Hk) as [?|?]; [set_solver|done|done].
      * exfalso. destruct (Hown k Hk) as [?|?]; [set_solver|done|done].
      * eapply Hd; eauto.
    + split; [done|]. split.
      * intros x. rewrite Hcov. setoid_rewrite Hip. split.
        -- intros [k [[-> Hx]|[[-> Hx]|(_ & _ & Hk)]]]; [| |by eauto].
           ++ assert (x ∈ pA ∪ pB) as [?|?]%elem_of_union by set_solver;
                [exists i, pA | exists j, pB]; done.
           ++ assert (x ∈ pA ∪ pB) as [?|?]%elem_of_union by set_solver;
                [exists i, pA | exists j, pB]; done.
        -- intros [k Hk]. destruct (decide (k = i)) as [->|Hki].
           ++ destruct Hk as (P & HP & Hx). rewrite HA in HP. injection HP as <-.
              assert (x ∈ r.1 ∪ r.2) as [?|?]%elem_of_union by set_solver; eauto.
           ++ destruct (decide (k = j)) as [->|Hkj].
              ** destruct Hk as (P & HP & Hx). rewrite HB in HP. injection HP as <-.
                 assert (x ∈ r.1 ∪ r.2) as [?|?]%elem_of_union by set_solver; eauto.
              ** eauto 10.
      * rewrite Hlen, !length_insert. done.
Qed.

Lemma hybrid_stages_phases spectral_labels kl pair_order node_order idx_order g t it alpha
    ps0 ps1 r :
  NoDup (g_nodes g) -> kl_contract kl -> is_iteration_order pair_order ->
  hybrid_stages spectral_labels kl pair_order node_order idx_order g t it alpha =
    Some (ThreePhases ps0 ps1 r) ->
  pairwise_disjoint ps1 /\ covers (g_nodes g) ps1 /\
  length ps1 = ceil_div (length (g_nodes g)) t /\
  io_balance node_order idx_order g alpha ps1 = Some r.
Proof.
  intros Hnd Hkl Hpo H. unfold hybrid_stages in H.
  case_decide; [done|]. case_decide; [done|]. case_decide; [done|].
  destruct (assign_labels _ _ _) as [ps0'|] eqn:Ha; [|done]. simpl in H.
  destruct (refine_pairs _ _ _ _ _) as [ps1'|] eqn:Hr; [|done]. simpl in H.
  destruct (io_balance _ _ _ _ _) as [r'|] eqn:Hb; [|done]. simpl in H.
  injection H as <- <- <-.
  apply assign_labels_spec in Ha as (Hd0 & Hcov0 & Hlen0); [|done| |].
  2:{ intros i j x Hi. by apply in_part_replicate in Hi. }
  2:{ intros x _ [i Hi]. by apply in_part_replicate in Hi. }
  apply refine_pairs_spec in Hr as (Hd1 & Hcov1 & Hlen1); [|done| |done].
  2:{ intros i j Hij. rewrite (Hpo _), elem_of_elements in Hij.
      apply elem_of_find_adjacent_partitions in Hij. lia. }
  split; [done|]. split; [|split; [|done]].
  - intros x. rewrite Hcov1, Hcov0. split; [by right|].
    intros [[i Hi]|?]; [by apply in_part_replicate in Hi|done].
  - rewrite Hlen1, Hlen0, length_replicate. done.
Qed.

Lemma filter_nonempty_spec U ps :
  pairwise_disjoint ps -> covers U ps ->
  pairwise_disjoint (filter (fun p : gset nat => p <> ∅) ps) /\
  all_nonempty (filter (fun p : gset nat => p <> ∅) ps) /\
  covers U (filter (fun p : gset nat => p <> ∅) ps).
Proof.
  intros Hd Hcov. split; [by apply pairwise_disjoint_filter|]. split.
  - intros P HP. by apply list_elem_of_filter in HP as [? _].
  - intros x. rewrite (Hcov x). split.
    + intros [j Hj]. eapply in_part_filter_2; [exact Hj|].
      intros P HP. destruct Hj as (P' & HP' & Hx). rewrite HP in HP'. injection HP' as <-.
      set_solver.
    + intros [i Hi]. by eapply in_part_filter.
Qed.

Lemma assign_labels_length ps nodes labels ps' :
  assign_labels ps nodes labels = Some ps' -> length ps' = length ps.
Proof.
  revert ps labels. induction nodes as [|n ns IH]; intros ps [|l ls] H; simpl in H;
    try congruence.
  destruct (ps !! l); [|done]. simpl in H. rewrite (IH _ _ H). apply length_insert.
Qed.

Lemma refine_pairs_length kl g it ps pairs ps' :
  refine_pairs kl g it ps pairs = Some ps' -> length ps' = length ps.
Proof.
  revert ps. induction pairs as [|[i j] rest IH]; intros ps H; simpl in H.
  - congruence.
  - destruct (ps !! i); [|done]. destruct (ps !! j); [|done]. simpl in H.
    case_decide; [|done]. rewrite (IH _ H), !length_insert. done.
Qed.

Lemma io_loop_length node_order idx_order g alpha fuel ps ntp r :
  io_loop node_order idx_order g alpha fuel ps ntp = Some r -> length (io_parts r) = length ps.
Proof.
  revert ps ntp r. induction fuel as [|f IH]; intros ps ntp r H.
  - simpl in H. injection H as <-. done.
  - io_loop_step H; simpl; try done.
    rewrite (IH _ _ _ Hloop). by eapply apply_move_length.
Qed.

Lemma ceil_div_pos n t : 0 < n -> 0 < t -> 1 <= ceil_div n t.
Proof. intros Hn Ht. unfold ceil_div. apply Nat.div_str_pos. lia. Qed.

Lemma ceil_div_lt_2 n t : 0 < n <= t -> ceil_div n t < 2.
Proof. intros Hn. unfold ceil_div. apply Nat.Div0.div_lt_upper_bound. lia. Qed.

(** ** Concrete checks *)

Lemma ex_kl_contract : kl_contract ex_kl.
Proof.
  intros ? S ?. unfold ex_kl. simpl. split; [|set_solver].
  apply set_eq. intros x.
  rewrite elem_of_union, elem_of_intersection, elem_of_difference.
  destruct (decide (x ∈ ({[1; 3]} : gset nat))); naive_solver.
Qed.

Lemma id_iteration_order {A} : is_iteration_order (fun l : list A => l).
Proof. intros l. done. Qed.

Lemma edges_coveredb_sound g ps : edges_coveredb g ps = true -> edges_covered g ps.
Proof.
  unfold edges_coveredb. rewrite forallb_forall. intros H u v He.
  apply list_elem_of_In, H in He. simpl in He.
  apply andb_prop in He as [Hu Hv]. apply bool_decide_eq_true in Hu, Hv.
  split; by apply elem_of_union_list_in_part.
Qed.

Lemma candidate_move_all_candidates g alpha ps ntp n t tg :
  candidate_move g alpha ps ntp n t tg -> (n, t, tg) ∈ all_candidates g alpha ps ntp.
Proof.
  intros (Hn & c & io & Hc & Ht & Htc & Hio & ->). unfold all_candidates.
  apply list_elem_of_bind. exists n. split; [|by apply elem_of_elements].
  rewrite Hc. apply list_elem_of_omap. exists t. split; [by apply elem_of_elements|].
  rewrite decide_False by done. rewrite Hio. done.
Qed.

(** * The claims *)

(** C1: whenever [hybrid_partitioner] returns, its partitions are pairwise
    disjoint, each non-empty, and their union is the node set of the graph
    (nodes listed once, as in a networkx graph; the bisection splits the
    union of the two partitions it is given into two disjoint halves). *)
Theorem hybrid_partitioner_partition spectral_labels kl pair_order node_order idx_order
    g t it alpha ps :
  NoDup (g_nodes g) -> kl_contract kl -> is_iteration_order pair_order ->
  hybrid_partitioner spectral_labels kl pair_order node_order idx_order g t it alpha = Some ps ->
  pairwise_disjoint ps /\ all_nonempty ps /\ covers (g_nodes g) ps.
Proof.
  intros Hnd Hkl Hpo H. unfold hybrid_partitioner in H.
  destruct (hybrid_stages _ _ _ _ _ _ _ _ _) as [run|] eqn:Hs; [|done]. simpl in H.
  destruct run as [ps'|ps0 ps1 r].
  - injection H as <-. unfold hybrid_stages in Hs.
    case_decide as Hn.
    + injection Hs as <-. apply nil_length_inv in Hn.
      split; [intros i j x (P & HP & _); done|]. split; [intros P HP; set_solver|].
      intros x. rewrite Hn. split; [set_solver|]. intros (i & P & HP & _). done.
    + case_decide; [done|]. case_decide; [|by destruct (assign_labels _ _ _) as [?|];
        simpl in Hs; [destruct (refine_pairs _ _ _ _ _) as [?|]; simpl in Hs;
        [destruct (io_balance _ _ _ _ _); simpl in Hs|]|]].
      injection Hs as <-. split; [|split].
      * intros i j x Hi Hj. apply in_part_length in Hi, Hj. simpl in *. lia.
      * intros P HP. apply list_elem_of_singleton in HP as ->.
        destruct (g_nodes g) as [|y ys]; [done|]. set_solver.
      * intros x. split.
        -- intros Hx. exists 0, (list_to_set (g_nodes g)). split; [done|].
           by apply elem_of_list_to_set.
        -- intros (i & P & HP & Hx). destruct i as [|[|]]; simpl in HP; try done.
           injection HP as <-. by apply elem_of_list_to_set in Hx.
  - injection H as <-.
    destruct (hybrid_stages_phases _ _ _ _ _ _ _ _ _ _ _ _ Hnd Hkl Hpo Hs)
      as (Hd1 & Hcov1 & _ & Hb).
    unfold io_balance in Hb.
    destruct (io_loop_invariant _ _ _ _ _ _ _ _ (conj Hd1 (build_ntp_consistent _ Hd1)) Hb)
      as ([Hd2 _] & _ & Hcov2 & _).
    apply filter_nonempty_spec; [done|].
    intros x. rewrite Hcov2. apply Hcov1.
Qed.

(** C4: with [io_balance_alpha = 0] the cut size after the I/O-balancing
    phase is at most the cut size after the Kernighan-Lin phase. *)
Theorem io_balance_alpha0_cut_le spectral_labels kl pair_order node_order idx_order
    g t it ps0 ps1 r :
  NoDup (g_nodes g) -> kl_contract kl -> is_iteration_order pair_order ->
  hybrid_stages spectral_labels kl pair_order node_order idx_order g t it 0 =
    Some (ThreePhases ps0 ps1 r) ->
  calculate_cut_size g (io_parts r) <= calculate_cut_size g ps1.
Proof.
  intros Hnd Hkl Hpo Hs.
  destruct (hybrid_stages_phases _ _ _ _ _ _ _ _ _ _ _ _ Hnd Hkl Hpo Hs)
    as (Hd1 & _ & _ & Hb).
  unfold io_balance in Hb.
  destruct (io_loop_invariant _ _ _ _ _ _ _ _ (conj Hd1 (build_ntp_consistent _ Hd1)) Hb)
    as (Hinv & _).
  unfold calculate_cut_size. rewrite (consistent_build_ntp _ _ Hinv).
  eapply io_loop_cut_le. exact Hb.
Qed.

(** C10: on a non-empty graph [hybrid_partitioner] returns at most
    [ceil(node_count / target_partition_size)] partitions. *)
Theorem hybrid_partitioner_count spectral_labels kl pair_order node_order idx_order
    g t it alpha ps :
  g_nodes g <> [] ->
  hybrid_partitioner spectral_labels kl pair_order node_order idx_order g t it alpha = Some ps ->
  length ps <= ceil_div (length (g_nodes g)) t.
Proof.
  intros Hne H. unfold hybrid_partitioner, hybrid_stages in H.
  case_decide as Hn; [by apply nil_length_inv in Hn|].
  case_decide as Ht; [done|]. case_decide as Hk.
  - simpl in H. injection H as <-. simpl. apply ceil_div_pos; lia.
  - destruct (assign_labels _ _ _) as [ps0|] eqn:Ha; [|done]. simpl in H.
    destruct (refine_pairs _ _ _ _ _) as [ps1|] eqn:Hr; [|done]. simpl in H.
    destruct (io_balance _ _ _ _ _) as [r|] eqn:Hb; [|done]. simpl in H.
    injection H as <-. unfold io_balance in Hb.
    rewrite length_filter, (io_loop_length _ _ _ _ _ _ _ _ Hb),
      (refine_pairs_length _ _ _ _ _ _ Hr), (assign_labels_length _ _ _ _ Ha),
      length_replicate.
    done.
Qed.

(** C7: a non-empty graph with [target_partition_size >= node_count] gives
    one partition holding every node; a single node [x] gives the partition
    [{x}], whose I/O counts are [(0, 0)]; the empty graph gives no
    partition. *)
Theorem hybrid_partitioner_degenerate spectral_labels kl pair_order node_order idx_order
    t it alpha :
  (forall g, 0 < length (g_nodes g) <= t ->
     hybrid_partitioner spectral_labels kl pair_order node_order idx_order g t it alpha =
       Some [list_to_set (g_nodes g)]) /\
  (forall x E, 0 < t -> wf_graph (mk_graph [x] E) ->
     hybrid_partitioner spectral_labels kl pair_order node_order idx_order
       (mk_graph [x] E) t it alpha = Some [{[x]}] /\
     get_io_for_partition (mk_graph [x] E) {[x]} = (0, 0)) /\
  (forall g, g_nodes g = [] ->
     hybrid_partitioner spectral_labels kl pair_order node_order idx_order g t it alpha =
       Some []).
Proof.
  assert (Hdeg : forall g, 0 < length (g_nodes g) <= t ->
     hybrid_partitioner spectral_labels kl pair_order node_order idx_order g t it alpha =
       Some [list_to_set (g_nodes g)]).
  { intros g Hg. unfold hybrid_partitioner, hybrid_stages.
    rewrite decide_False by lia. rewrite decide_False by lia.
    rewrite decide_True by (apply ceil_div_lt_2; lia). done. }
  split; [done|]. split.
  - intros x E Ht (_ & _ & HE). split.
    + rewrite (Hdeg (mk_graph [x] E)) by (simpl; lia). simpl. do 2 f_equal. set_solver.
    + unfold get_io_for_partition. simpl.
      assert (Hf : forall P : nat * nat -> Prop, (forall e, e ∈ E -> ~ P e) ->
                forall `{!forall e, Decision (P e)}, filter P E = []).
      { intros P HP ?. clear HE. induction E as [|e E' IH]; [done|].
        rewrite filter_cons, decide_False by (apply HP; left).
        apply IH. intros e' He'. apply HP. by right. }
      rewrite (Hf (fun e : nat * nat => e.2 ∈ ({[x]} : gset nat) /\ e.1 ∉ ({[x]} : gset nat))).
      2:{ intros [u v] He [_ Hu]. apply HE in He as [Hu' _]. simpl in *. set_solver. }
      rewrite (Hf (fun e : nat * nat => e.1 ∈ ({[x]} : gset nat) /\ e.2 ∉ ({[x]} : gset nat))).
      2:{ intros [u v] He [_ Hv]. apply HE in He as [_ Hv']. simpl in *. set_solver. }
      done.
  - intros g Hg. unfold hybrid_partitioner, hybrid_stages.
    rewrite Hg. done.
Qed.



Lemma candidate_move_gain_unique g alpha ps ntp n t tg tg' :
  candidate_move g alpha ps ntp n t tg -> candidate_move g alpha ps ntp n t tg' -> tg = tg'.
Proof.
  intros (_ & c & io & Hc & _ & _ & Hio & ->) (_ & c' & io' & Hc' & _ & _ & Hio' & ->).
  rewrite Hc in Hc'. injection Hc' as <-. rewrite Hio in Hio'. injection Hio' as <-. done.
Qed.

(** X14: a balancing pass picks the same move under every iteration
    order when one candidate move has a strictly greater [total_gain] than
    every other candidate. *)
Theorem select_move_unique_best node_order idx_order g alpha ps ntp n t tg :
  is_iteration_order node_order -> is_iteration_order idx_order ->
  balancing_invariant ps ntp -> edges_covered g ps ->
  candidate_move g alpha ps ntp n t tg ->
  (forall n' t' tg', candidate_move g alpha ps ntp n' t' tg' -> (n', t') <> (n, t) ->
     Qlt tg' tg) ->
  select_move node_order idx_order g alpha ps ntp = Some (Some (n, t, tg)).
Proof.
  intros Hno Hio Hinv Hcov Hc Hbest.
  destruct (select_move_some _ _ _ alpha _ _ Hno Hio Hinv Hcov) as [best Hs].
  destruct (select_move_spec _ _ _ _ _ _ _ Hno Hio Hs) as [Hdom Horig].
  rewrite Hs. f_equal.
  pose proof (Hdom _ _ _ Hc) as Hd.
  destruct best as [[[n' t'] tg']|]; [|done]. simpl in Hd.
  pose proof (Horig _ _ _ eq_refl) as Hc'.
  destruct (decide ((n', t') = (n, t))) as [Heq|Hne].
  - injection Heq as -> ->. by rewrite (candidate_move_gain_unique _ _ _ _ _ _ _ _ Hc' Hc).
  - exfalso. pose proof (Hbest _ _ _ Hc' Hne). apply (Qlt_not_le tg' tg); done.
Qed.

Lemma refine_pairs_some kl g it ps pairs :
  (forall i j, (i, j) ∈ pairs -> i < length ps /\ j < length ps) ->
  is_Some (refine_pairs kl g it ps pairs).
Proof.
  revert ps. induction pairs as [|[i j] rest IH]; intros ps Hr; simpl; [by eexists|].
  destruct (Hr i j) as [Hi Hj]; [by left|].
  destruct (lookup_lt_is_Some_2 ps i Hi) as [pA ->].
  destruct (lookup_lt_is_Some_2 ps j Hj) as [pB ->]. simpl.
  rewrite decide_True by (rewrite length_insert; done).
  apply IH. intros i' j' H. rewrite !length_insert. apply Hr. by right.
Qed.







(** * Instances of the claims on concrete runs *)






Lemma hybrid_partitioner_partition_witness :
  match hybrid_partitioner ex_labels ex_kl (fun l => l) (fun l => l) (fun l => l)
          ex_graph 2 10 0 with
  | Some ps => pairwise_disjoint ps /\ all_nonempty ps /\ covers (g_nodes ex_graph) ps
  | None => False
  end.
Proof.
  destruct (hybrid_partitioner ex_labels ex_kl _ _ _ ex_graph 2 10 0) as [ps|] eqn:E.
  - apply (hybrid_partitioner_partition ex_labels ex_kl (fun l => l) (fun l => l) (fun l => l)
             ex_graph 2 10 0 ps).
    + apply (bool_decide_unpack _). vm_compute. reflexivity.
    + apply ex_kl_contract.
    + apply id_iteration_order.
    + exact E.
  - vm_compute in E. discriminate E.
Defined.

Lemma select_move_unique_best_witness :
  select_move (fun l => l) (fun l => l) (mk_graph [1; 2; 3] [(1, 2); (1, 3)]) 0
    [{[1]}; {[2; 3]}] (build_ntp [{[1]}; {[2; 3]}]) = Some (Some (1, 1, 2%Q)).
Proof.
  assert (Hd : pairwise_disjoint [{[1]}; {[2; 3]}]).
  { apply disjoint_listb_sound. vm_compute. reflexivity. }
  apply (select_move_unique_best (fun l => l) (fun l => l) (mk_graph [1; 2; 3] [(1, 2); (1, 3)])
           0 [{[1]}; {[2; 3]}] (build_ntp [{[1]}; {[2; 3]}]) 1 1 2%Q).
  - apply id_iteration_order.
  - apply id_iteration_order.
  - split; [exact Hd|]. by apply build_ntp_consistent.
  - apply edges_coveredb_sound. vm_compute. reflexivity.
  - split; [apply (bool_decide_unpack _); vm_compute; reflexivity|].
    exists 0, 3%Z. split; [vm_compute; reflexivity|].
    split; [apply (bool_decide_unpack _); vm_compute; reflexivity|].
    split; [lia|]. split; vm_compute; reflexivity.
  - intros n' t' tg' Hc Hne. apply candidate_move_all_candidates in Hc.
    assert (E : all_candidates (mk_graph [1; 2; 3] [(1, 2); (1, 3)]) 0 [{[1]}; {[2; 3]}]
                  (build_ntp [{[1]}; {[2; 3]}]) = [(2, 0, 1%Q); (3, 0, 1%Q); (1, 1, 2%Q)])
      by (vm_compute; reflexivity).
    rewrite E in Hc.
    repeat rewrite elem_of_cons in Hc.
    destruct Hc as [Hc|[Hc|[Hc|Hc]]].
    + injection Hc as -> -> ->. vm_compute. reflexivity.
    + injection Hc as -> -> ->. vm_compute. reflexivity.
    + injection Hc as -> -> ->. exfalso. by apply Hne.
    + by apply elem_of_nil in Hc.
Defined.

Lemma find_adjacent_partitions_exact_witness :
  pairwise_disjoint [{[1; 3]}; {[2; 4]}] /\
  find_adjacent_partitions ex_graph [{[1; 3]}; {[2; 4]}] =
    adjacent_by_edge_pass ex_graph [{[1; 3]}; {[2; 4]}].
Proof.
  assert (Hd : pairwise_disjoint [{[1; 3]}; {[2; 4]}]).
  { apply disjoint_listb_sound. vm_compute. reflexivity. }
  split; [exact Hd|].
  exact (proj2 (find_adjacent_partitions_exact ex_graph [{[1; 3]}; {[2; 4]}]) Hd).
Defined.

Lemma io_balance_alpha0_cut_le_witness :
  match hybrid_stages ex_labels ex_kl (fun l => l) (fun l => l) (fun l => l) ex_graph 2 10 0 with
  | Some (ThreePhases _ ps1 r) =>
      calculate_cut_size ex_graph (io_parts r) <= calculate_cut_size ex_graph ps1
  | _ => False
  end.
Proof.
  destruct (hybrid_stages ex_labels ex_kl _ _ _ ex_graph 2 10 0) as [[ps|ps0 ps1 r]|] eqn:E.
  - vm_compute in E. discriminate E.
  - apply (io_balance_alpha0_cut_le ex_labels ex_kl (fun l => l) (fun l => l) (fun l => l)
             ex_graph 2 10 ps0 ps1 r).
    + apply (bool_decide_unpack _). vm_compute. reflexivity.
    + apply ex_kl_contract.
    + apply id_iteration_order.
    + exact E.
  - vm_compute in E. discriminate E.
Defined.

Lemma io_balance_local_optimum_witness :
  match io_balance (fun l => l) (fun l => l) ex_graph 0 [{[1; 3]}; {[2; 4]}] with
  | Some r => io_stop r <> PassCap /\
      forall n t tg, candidate_move ex_graph 0 (io_parts r) (io_ntp r) n t tg -> Qle tg 0
  | None => False
  end.
Proof.
  destruct (io_balance (fun l => l) (fun l => l) ex_graph 0 [{[1; 3]}; {[2; 4]}])
    as [r|] eqn:E; [|vm_compute in E; discriminate E].
  assert (Hs : io_stop r <> PassCap).
  { pose proof E as E'. vm_compute in E'. injection E' as <-. simpl. discriminate. }
  split; [exact Hs|].
  exact (io_balance_local_optimum (fun l => l) (fun l => l) ex_graph 0 _ r
           id_iteration_order id_iteration_order E Hs).
Defined.

Lemma io_balance_bounded_witness :
  exists r, io_balance (fun l => l) (fun l => l) ex_graph 0 [{[1; 3]}; {[2; 4]}] = Some r /\
    io_passes r <= length (g_nodes ex_graph) /\ length (io_trace r) <= io_passes r.
Proof.
  apply (io_balance_bounded (fun l => l) (fun l => l) ex_graph 0 [{[1; 3]}; {[2; 4]}]).
  - apply id_iteration_order.
  - apply id_iteration_order.
  - apply disjoint_listb_sound. vm_compute. reflexivity.
  - apply edges_coveredb_sound. vm_compute. reflexivity.
Defined.

Lemma hybrid_partitioner_degenerate_witness :
  hybrid_partitioner ex_labels ex_kl (fun l => l) (fun l => l) (fun l => l)
    (mk_graph [1; 2] [(1, 2)]) 5 10 0 = Some [list_to_set [1; 2]] /\
  (hybrid_partitioner ex_labels ex_kl (fun l => l) (fun l => l) (fun l => l)
    (mk_graph [7] [(7, 7)]) 3 10 0 = Some [{[7]}] /\
   get_io_for_partition (mk_graph [7] [(7, 7)]) {[7]} = (0, 0)) /\
  hybrid_partitioner ex_labels ex_kl (fun l => l) (fun l => l) (fun l => l)
    (mk_graph [] []) 3 10 0 = Some [].
Proof.
  destruct (hybrid_partitioner_degenerate ex_labels ex_kl (fun l => l) (fun l => l) (fun l => l)
              5 10 0) as [H1 _].
  destruct (hybrid_partitioner_degenerate ex_labels ex_kl (fun l => l) (fun l => l) (fun l => l)
              3 10 0) as [_ [H2 H3]].
  split; [apply (H1 (mk_graph [1; 2] [(1, 2)])); simpl; lia|].
  split; [|apply H3; reflexivity].
  apply H2; [lia|]. split; [apply (bool_decide_unpack _); vm_compute; reflexivity|].
  split; [apply (bool_decide_unpack _); vm_compute; reflexivity|].
  intros u v He. simpl in *. apply list_elem_of_singleton in He. injection He as -> ->.
  split; apply list_elem_of_singleton; reflexivity.
Defined.

Lemma io_balance_consistent_witness :
  match io_balance (fun l => l) (fun l => l) ex_graph 0 [{[1; 3]}; {[2; 4]}] with
  | Some r =>
      balancing_invariant [{[1; 3]}; {[2; 4]}] (build_ntp [{[1; 3]}; {[2; 4]}]) /\
      Forall (fun st => balancing_invariant st.1 st.2) (io_trace r) /\
      balancing_invariant (io_parts r) (io_ntp r)
  | None => False
  end.
Proof.
  destruct (io_balance (fun l => l) (fun l => l) ex_graph 0 [{[1; 3]}; {[2; 4]}])
    as [r|] eqn:E; [|vm_compute in E; discriminate E].
  apply (io_balance_consistent (fun l => l) (fun l => l) ex_graph 0 _ r).
  - apply disjoint_listb_sound. vm_compute. reflexivity.
  - exact E.
Defined.

Lemma hybrid_partitioner_count_witness :
  match hybrid_partitioner ex_labels ex_kl (fun l => l) (fun l => l) (fun l => l)
          ex_graph 2 10 0 with
  | Some ps => length ps <= ceil_div (length (g_nodes ex_graph)) 2
  | None => False
  end.
Proof.
  destruct (hybrid_partitioner ex_labels ex_kl _ _ _ ex_graph 2 10 0) as [ps|] eqn:E.
  - apply (hybrid_partitioner_count ex_labels ex_kl (fun l => l) (fun l => l) (fun l => l)
             ex_graph 2 10 0 ps).
    + discriminate.
    + exact E.
  - vm_compute in E. discriminate E.
Defined.

(** * Further properties of the code *)

(** ** node_to_partition *)

Lemma build_ntp_from_last k ps n i :
  build_ntp_from k ps !! n = Some i <->
  k <= i /\ in_part ps (i - k) n /\ forall j, i - k < j -> ~ in_part ps j n.
Proof.
  revert k. induction ps as [|p ps IH]; intros k; simpl.
  - rewrite lookup_empty. split; [done|]. intros (_ & (P & HP & _) & _). done.
  - rewrite lookup_union_Some_raw, IH, build_ntp_from_None, lookup_gset_to_gmap_Some.
    split.
    + intros [(Hk & Hin & Hlast) | (Hnone & Hn & <-)].
      * split; [lia|]. replace (i - k) with (S (i - S k)) by lia. split.
        -- apply in_part_cons. right. eauto.
        -- intros j Hj Hjn. apply in_part_cons in Hjn as [[-> _]|(j' & -> & Hj')]; [lia|].
           apply (Hlast j'); [lia|done].
      * rewrite Nat.sub_diag. split; [lia|]. split.
        -- apply in_part_cons. left. done.
        -- intros j Hj Hjn. apply in_part_cons in Hjn as [[-> _]|(j' & -> & Hj')]; [lia|].
           apply Hnone. eauto.
    + intros (Hk & Hin & Hlast).
      destruct (decide (i = k)) as [->|Hik].
      * right. rewrite Nat.sub_diag in Hin, Hlast.
        apply in_part_cons in Hin as [[_ Hn]|(j' & ? & _)]; [|lia].
        split; [|done]. intros [j Hj]. apply (Hlast (S j)); [lia|].
        apply in_part_cons. right. eauto.
      * left. replace (i - k) with (S (i - S k)) in Hin, Hlast by lia. split; [lia|]. split.
        -- apply in_part_cons in Hin as [[? _]|(j' & Hj' & ?)]; [lia|].
           injection Hj' as <-. done.
        -- intros j Hj Hjn. apply (Hlast (S j)); [lia|]. apply in_part_cons. right. eauto.
Qed.

(** X1: [{node: i for i, p in enumerate(partitions) for node in p}] maps a
    node to the last index of a partition holding it; a node held by no
    partition has no entry. *)
Theorem build_ntp_last_index ps n i :
  (build_ntp ps !! n = Some i <-> in_part ps i n /\ forall j, i < j -> ~ in_part ps j n) /\
  (build_ntp ps !! n = None <-> ~ exists j, in_part ps j n).
Proof.
  split; [|apply build_ntp_from_None].
  unfold build_ntp. rewrite build_ntp_from_last, Nat.sub_0_r. split; [tauto|].
  intros [? ?]. split; [lia|done].
Qed.

(** ** _calculate_cut_size *)

Lemma existsb_lookup {A} (f : A -> bool) (l : list A) :
  existsb f l = true <-> exists i x, l !! i = Some x /\ f x = true.
Proof.
  rewrite existsb_exists. split.
  - intros (x & Hx & Hf). apply list_elem_of_In, list_elem_of_lookup_1 in Hx as [i Hi]. eauto.
  - intros (i & x & Hi & Hf). exists x. split; [|done].
    apply list_elem_of_In. by eapply list_elem_of_lookup_2.
Qed.

Lemma placedb_true ps u : placedb ps u = true <-> exists i, in_part ps i u.
Proof.
  unfold placedb. rewrite existsb_lookup. unfold in_part. split.
  - intros (i & P & HP & Hu). apply bool_decide_eq_true in Hu. eauto.
  - intros (i & P & HP & Hu). exists i, P. split; [done|]. by apply bool_decide_eq_true.
Qed.

Lemma same_partb_true ps u v :
  same_partb ps u v = true <-> exists i, in_part ps i u /\ in_part ps i v.
Proof.
  unfold same_partb. rewrite existsb_lookup. unfold in_part. split.
  - intros (i & P & HP & Huv). apply andb_prop in Huv as [Hu Hv].
    apply bool_decide_eq_true in Hu, Hv. exists i. split; eauto.
  - intros (i & (P & HP & Hu) & (P' & HP' & Hv)). rewrite HP in HP'. injection HP' as <-.
    exists i, P. split; [done|]. apply andb_true_intro. split; by apply bool_decide_eq_true.
Qed.

Lemma same_partb_elem ps u v :
  same_partb ps u v = true <-> exists P, P ∈ ps /\ u ∈ P /\ v ∈ P.
Proof.
  rewrite same_partb_true. unfold in_part. split.
  - intros (i & (P & HP & Hu) & (P' & HP' & Hv)). rewrite HP in HP'. injection HP' as <-.
    exists P. split; [by eapply list_elem_of_lookup_2|done].
  - intros (P & HP & Hu & Hv). apply list_elem_of_lookup_1 in HP as [i Hi]. eauto 10.
Qed.

Lemma placedb_elem ps u : placedb ps u = true <-> exists P, P ∈ ps /\ u ∈ P.
Proof.
  rewrite placedb_true. unfold in_part. split.
  - intros (i & P & HP & Hu). exists P. split; [by eapply list_elem_of_lookup_2|done].
  - intros (P & HP & Hu). apply list_elem_of_lookup_1 in HP as [i Hi]. eauto.
Qed.

Lemma build_ntp_differ ps u v :
  pairwise_disjoint ps ->
  build_ntp ps !! u <> build_ntp ps !! v <-> cut_edgeb ps (u, v) = true.
Proof.
  intros Hd. pose proof (build_ntp_consistent ps Hd) as Hc.
  unfold cut_edgeb. simpl.
  rewrite andb_true_iff, negb_true_iff, orb_true_iff, !placedb_true.
  assert (same_partb ps u v = false <-> ~ exists i, in_part ps i u /\ in_part ps i v) as ->.
  { rewrite <-same_partb_true. destruct (same_partb ps u v); naive_solver. }
  destruct (build_ntp ps !! u) as [i|] eqn:Hu, (build_ntp ps !! v) as [j|] eqn:Hv.
  - apply Hc in Hu, Hv. split.
    + intros Hne. split; [|eauto]. intros (k & Hk1 & Hk2).
      apply Hne. f_equal. transitivity k; [eapply Hd; eauto|symmetry; eapply Hd; eauto].
    + intros [Hn _] Heq. injection Heq as <-. eauto.
  - apply Hc in Hu. apply build_ntp_from_None in Hv. split; [|congruence].
    intros _. split; [|eauto]. intros (k & _ & Hk). eauto.
  - apply Hc in Hv. apply build_ntp_from_None in Hu. split; [|congruence].
    intros _. split; [|eauto]. intros (k & Hk & _). eauto.
  - apply build_ntp_from_None in Hu, Hv. split; [done|].
    intros [_ [?|?]]; contradiction.
Qed.

(** X2: for pairwise disjoint partitions, [_calculate_cut_size] counts the
    edges that no partition holds whole and that have at least one endpoint
    in some partition: an edge between two nodes held by no partition is
    not counted ([None != None] is false). *)
Theorem calculate_cut_size_count g ps :
  pairwise_disjoint ps ->
  calculate_cut_size g ps = length (filter (fun e => cut_edgeb ps e = true) (g_edges g)).
Proof.
  intros Hd. unfold calculate_cut_size, cut_of. f_equal.
  apply list_filter_iff. intros [u v]. simpl. by apply build_ntp_differ.
Qed.

(** X3: the cut size depends only on the non-empty partitions, not on their
    order: two pairwise-disjoint partition lists with the same non-empty
    members (for instance one with its empty partitions filtered out, or
    reordered) have the same cut size. *)
Theorem calculate_cut_size_nonempty_members g ps ps' :
  pairwise_disjoint ps -> pairwise_disjoint ps' ->
  (forall P, P <> ∅ -> P ∈ ps <-> P ∈ ps') ->
  calculate_cut_size g ps = calculate_cut_size g ps'.
Proof.
  intros Hd Hd' Hm. rewrite !calculate_cut_size_count by done. f_equal.
  apply list_filter_iff. intros [u v].
  assert (Hs : forall x y, same_partb ps x y = same_partb ps' x y).
  { intros x y. apply eq_bool_prop_intro. rewrite !Is_true_true, !same_partb_elem.
    split; intros (P & HP & Hx & Hy); exists P; (split; [|done]); apply Hm; set_solver. }
  assert (Hp : forall x, placedb ps x = placedb ps' x).
  { intros x. apply eq_bool_prop_intro. rewrite !Is_true_true, !placedb_elem.
    split; intros (P & HP & Hx); exists P; (split; [|done]); apply Hm; set_solver. }
  unfold cut_edgeb. simpl. rewrite Hs, !Hp. done.
Qed.

(** ** _get_io_for_partition *)

Lemma io_filter_reverse (P : gset nat) E :
  map fst (filter (fun e : nat * nat => e.2 ∈ P /\ e.1 ∉ P) (map (fun e => (e.2, e.1)) E)) =
  map snd (filter (fun e : nat * nat => e.1 ∈ P /\ e.2 ∉ P) E) /\
  map snd (filter (fun e : nat * nat => e.1 ∈ P /\ e.2 ∉ P) (map (fun e => (e.2, e.1)) E)) =
  map fst (filter (fun e : nat * nat => e.2 ∈ P /\ e.1 ∉ P) E).
Proof.
  induction E as [|[u v] E [IH1 IH2]]; [done|]. simpl.
  rewrite !filter_cons. simpl in *.
  split; repeat case_decide; simpl; try tauto; try congruence.
Qed.

(** X4: on the reversed graph the input and output counts of a partition
    are swapped. *)
Theorem get_io_for_partition_reverse g P :
  get_io_for_partition (reverse_graph g) P =
  ((get_io_for_partition g P).2, (get_io_for_partition g P).1).
Proof.
  unfold get_io_for_partition, reverse_graph. simpl.
  destruct (io_filter_reverse P (g_edges g)) as [-> ->]. done.
Qed.

(** X5: on a graph whose edges join its nodes, the input count and the
    output count of a partition are each at most the number of graph nodes
    outside it; a partition holding every node has I/O counts [(0, 0)]. *)
Theorem get_io_for_partition_bounded g P :
  wf_graph g ->
  (get_io_for_partition g P).1 <= size (list_to_set (g_nodes g) ∖ P : gset nat) /\
  (get_io_for_partition g P).2 <= size (list_to_set (g_nodes g) ∖ P : gset nat) /\
  (list_to_set (g_nodes g) ⊆ P -> get_io_for_partition g P = (0, 0)).
Proof.
  intros (_ & _ & Hwf).
  assert (Hin : forall x, x ∈ (list_to_set (map fst (filter (fun e : nat * nat => e.2 ∈ P /\ e.1 ∉ P) (g_edges g))) : gset nat) ->
            x ∈ (list_to_set (g_nodes g) ∖ P : gset nat)).
  { intros x Hx. apply elem_of_list_to_set, list_elem_of_In, in_map_iff in Hx as ([u v] & <- & He).
    apply list_elem_of_In, list_elem_of_filter in He as [[_ Hu] He]. simpl in *.
    apply Hwf in He as [Hu' _]. apply elem_of_difference. split; [|done].
    by apply elem_of_list_to_set. }
  assert (Hout : forall x, x ∈ (list_to_set (map snd (filter (fun e : nat * nat => e.1 ∈ P /\ e.2 ∉ P) (g_edges g))) : gset nat) ->
            x ∈ (list_to_set (g_nodes g) ∖ P : gset nat)).
  { intros x Hx. apply elem_of_list_to_set, list_elem_of_In, in_map_iff in Hx as ([u v] & <- & He).
    apply list_elem_of_In, list_elem_of_filter in He as [[_ Hv] He]. simpl in *.
    apply Hwf in He as [_ Hv']. apply elem_of_difference. split; [|done].
    by apply elem_of_list_to_set. }
  unfold get_io_for_partition. simpl.
  assert (H1 := subseteq_size _ _ Hin). assert (H2 := subseteq_size _ _ Hout).
  split; [done|]. split; [done|].
  intros Hall. assert (list_to_set (g_nodes g) ∖ P = (∅ : gset nat)) as Hemp by set_solver.
  rewrite Hemp, size_empty in H1, H2. f_equal; lia.
Qed.

(** ** The clustering assignment *)

Lemma assign_labels_members ps nodes labels ps' :
  assign_labels ps nodes labels = Some ps' ->
  forall i x, in_part ps' i x <->
    in_part ps i x \/ exists p, nodes !! p = Some x /\ labels !! p = Some i.
Proof.
  revert ps labels. induction nodes as [|n ns IH]; intros ps labels H i x.
  - assert (ps' = ps) as -> by (destruct labels; simpl in H; congruence).
    split; [by left|]. intros [?|(p & Hp & _)]; [done|]. done.
  - destruct labels as [|l ls]; [done|]. simpl in H.
    destruct (ps !! l) as [P|] eqn:Hl; [|done]. simpl in H.
    rewrite (IH _ _ H), (in_part_add ps l P n i x Hl). split.
    + intros [[Hi|[-> ->]]|(p & Hp & Hlp)].
      * by left.
      * right. exists 0. done.
      * right. exists (S p). done.
    + intros [Hi|([|p] & Hp & Hlp)].
      * left. by left.
      * simpl in Hp, Hlp. injection Hp as <-. injection Hlp as <-. left. by right.
      * right. exists p. done.
Qed.

Lemma assign_labels_some ps nodes labels :
  is_Some (assign_labels ps nodes labels) <->
  length nodes <= length labels /\
  forall p l, labels !! p = Some l -> p < length nodes -> l < length ps.
Proof.
  revert ps labels. induction nodes as [|n ns IH]; intros ps labels.
  - destruct labels; simpl; (split; [intros _; split; [lia|intros; lia]|by eexists]).
  - destruct labels as [|l ls]; simpl.
    + split; [intros [? ?]; done|]. intros [? _]. lia.
    + destruct (ps !! l) as [P|] eqn:Hl; simpl.
      * rewrite IH, length_insert. split.
        -- intros [Hlen Hall]. split; [lia|].
           intros [|p] l' Hp Hpn; simpl in Hp.
           ++ injection Hp as <-. by eapply lookup_lt_Some.
           ++ apply (Hall p l'); [done|lia].
        -- intros [Hlen Hall]. split; [lia|].
           intros p l' Hp Hpn. apply (Hall (S p) l'); [done|lia].
      * split; [intros [? ?]; done|]. intros [_ Hall].
        assert (l < length ps) by (apply (Hall 0 l); [done|lia]).
        apply lookup_ge_None in Hl. lia.
Qed.

(** X6: the assignment of the clustering labels ([partitions[labels[i]].add(node)]
    over [k] empty sets) fails with an IndexError exactly when there are
    fewer labels than nodes or a label of a node is not below [k];
    otherwise it gives [k] partitions, partition [i] holding the nodes whose
    label is [i]. *)
Theorem assign_labels_result k nodes labels :
  (is_Some (assign_labels (replicate k ∅) nodes labels) <->
   length nodes <= length labels /\
   forall p l, labels !! p = Some l -> p < length nodes -> l < k) /\
  (forall ps, assign_labels (replicate k ∅) nodes labels = Some ps ->
   length ps = k /\
   forall i x, in_part ps i x <-> exists p, nodes !! p = Some x /\ labels !! p = Some i).
Proof.
  split.
  - rewrite assign_labels_some, length_replicate. done.
  - intros ps H. split.
    + rewrite (assign_labels_length _ _ _ _ H). apply length_replicate.
    + intros i x. rewrite (assign_labels_members _ _ _ _ H). split; [|by right].
      intros [Hi|?]; [by apply in_part_replicate in Hi|done].
Qed.

(** ** The refinement phase *)

Lemma refine_pairs_frame kl g it ps pairs ps' k :
  refine_pairs kl g it ps pairs = Some ps' ->
  (forall i j, (i, j) ∈ pairs -> k <> i /\ k <> j) ->
  ps' !! k = ps !! k.
Proof.
  revert ps. induction pairs as [|[i j] rest IH]; intros ps H Hk; simpl in H.
  - congruence.
  - destruct (ps !! i); [|done]. destruct (ps !! j); [|done]. simpl in H.
    case_decide; [|done].
    destruct (Hk i j) as [Hki Hkj]; [by left|].
    rewrite (IH _ H) by (intros; apply Hk; by right).
    rewrite !list_lookup_insert_ne by congruence. done.
Qed.

(** X7: the Kernighan-Lin phase keeps the partitions pairwise disjoint,
    keeps the set of nodes they hold and their number, and leaves every
    partition whose index is in no refined pair untouched. *)
Theorem refine_pairs_keeps_partition kl g it ps pairs ps' :
  kl_contract kl ->
  (forall i j, (i, j) ∈ pairs -> i <> j) ->
  pairwise_disjoint ps ->
  refine_pairs kl g it ps pairs = Some ps' ->
  pairwise_disjoint ps' /\
  (forall x, (exists i, in_part ps' i x) <-> (exists i, in_part ps i x)) /\
  length ps' = length ps /\
  (forall k, (forall i j, (i, j) ∈ pairs -> k <> i /\ k <> j) -> ps' !! k = ps !! k).
Proof.
  intros Hkl Hne Hd H.
  destruct (refine_pairs_spec _ _ _ _ _ _ Hkl Hne H Hd) as (H1 & H2 & H3).
  split; [done|]. split; [done|]. split; [done|].
  intros k Hk. by eapply refine_pairs_frame.
Qed.

(** X8: refining the pairs the adjacency finder returns never raises an
    IndexError, whatever order the pairs come in. *)
Theorem refine_adjacent_pairs_some kl pair_order g it ps :
  is_iteration_order pair_order ->
  is_Some (refine_pairs kl g it ps (pair_order (elements (find_adjacent_partitions g ps)))).
Proof.
  intros Hpo. apply refine_pairs_some. intros i j Hij.
  rewrite (Hpo _), elem_of_elements, elem_of_find_adjacent_partitions in Hij.
  destruct Hij as (_ & A & B & u & v & HA & HB & _).
  split; eapply lookup_lt_Some; eauto.
Qed.

(** ** The whole run *)

(** X9: on a non-empty graph, [hybrid_partitioner] fails
    (ZeroDivisionError) when [target_partition_size = 0], and raises no
    exception when the size is positive and the clustering gives every node
    a label below [k = ceil(node_count / target_partition_size)]. *)
Theorem hybrid_partitioner_errors spectral_labels kl pair_order node_order idx_order
    g t it alpha :
  g_nodes g <> [] ->
  (t = 0 ->
   hybrid_partitioner spectral_labels kl pair_order node_order idx_order g t it alpha = None) /\
  (0 < t -> wf_graph g -> kl_contract kl ->
   is_iteration_order pair_order -> is_iteration_order node_order ->
   is_iteration_order idx_order ->
   (let k := ceil_div (length (g_nodes g)) t in
    length (g_nodes g) <= length (spectral_labels g k) /\
    forall p l, spectral_labels g k !! p = Some l -> p < length (g_nodes g) -> l < k) ->
   is_Some (hybrid_partitioner spectral_labels kl pair_order node_order idx_order g t it alpha)).
Proof.
  intros Hne. unfold hybrid_partitioner, hybrid_stages.
  assert (Hn : length (g_nodes g) <> 0) by (intros ?%nil_length_inv; done).
  rewrite decide_False by done. split.
  - intros ->. rewrite decide_True by done. done.
  - intros Ht (Hnd & _ & Hwf) Hkl Hpo Hno Hio Hlab.
    rewrite decide_False by lia.
    case_decide as Hk; [by eexists|].
    destruct (proj2 (assign_labels_some (replicate (ceil_div (length (g_nodes g)) t) ∅)
                      (g_nodes g) (spectral_labels g (ceil_div (length (g_nodes g)) t))))
      as [ps0 Ha].
    { rewrite length_replicate. exact Hlab. }
    rewrite Ha. simpl.
    destruct (refine_adjacent_pairs_some kl pair_order g it ps0 Hpo) as [ps1 Hr].
    rewrite Hr. simpl.
    apply assign_labels_spec in Ha as (Hd0 & Hcov0 & _); [|done| |].
    2:{ intros i j x Hi. by apply in_part_replicate in Hi. }
    2:{ intros x _ [i Hi]. by apply in_part_replicate in Hi. }
    apply refine_pairs_spec in Hr as (Hd1 & Hcov1 & _); [|done| |done].
    2:{ intros i j Hij. rewrite (Hpo _), elem_of_elements in Hij.
        apply elem_of_find_adjacent_partitions in Hij. lia. }
    assert (Hcov : forall x, x ∈ g_nodes g -> exists i, in_part ps1 i x).
    { intros x Hx. apply Hcov1, Hcov0. by right. }
    destruct (io_loop_some node_order idx_order g alpha (length (g_nodes g)) ps1 (build_ntp ps1)
                Hno Hio (conj Hd1 (build_ntp_consistent _ Hd1))) as [r Hb].
    { intros u v He. destruct (Hwf u v He). split; by apply Hcov. }
    unfold io_balance. rewrite Hb. by eexists.
Qed.

(** ** The balancing phase *)

Lemma boundary_nodes_empty g ntp :
  cut_of g ntp = 0 -> boundary_nodes g ntp = ∅.
Proof.
  intros H0. unfold cut_of in H0. apply nil_length_inv in H0.
  apply set_eq. intros x. split; [|set_solver].
  intros (u & v & He & Hne & _)%elem_of_boundary_nodes.
  exfalso. eapply filter_nil_not_elem_of; [exact H0| |exact He]. exact Hne.
Qed.

(** X10: when no edge is cut, the balancing phase of a non-empty graph
    stops in its first pass ([if not boundary_nodes: break]) and returns the
    partitions it was given. *)
Theorem io_balance_no_cut node_order idx_order g alpha ps :
  0 < length (g_nodes g) ->
  calculate_cut_size g ps = 0 ->
  io_balance node_order idx_order g alpha ps =
    Some (mk_io_outcome ps (build_ntp ps) NoBoundary 1 []).
Proof.
  intros Hn H0. unfold io_balance.
  destruct (length (g_nodes g)) as [|f]; [lia|]. simpl.
  rewrite decide_True by (apply boundary_nodes_empty; exact H0). done.
Qed.

Lemma io_loop_moves_cut node_order idx_order g fuel ps ntp r :
  io_loop node_order idx_order g 0 fuel ps ntp = Some r ->
  cut_of g (io_ntp r) + length (io_trace r) <= cut_of g ntp.
Proof.
  revert ps ntp r. induction fuel as [|f IH]; intros ps ntp r H.
  - simpl in H. injection H as <-. simpl. lia.
  - io_loop_step H; simpl; try lia.
    unfold select_move in Hsel.
    apply scan_nodes_origin in Hsel as [?|(n' & c & t' & io & Hm & _ & Hc & _ & Htc & _)];
      [done|].
    injection Hm as -> -> ->.
    apply apply_move_inv in Hmove as (c' & pc & pt & Hc' & _ & _ & _ & ->).
    rewrite Hc in Hc'. injection Hc' as <-.
    apply total_gain_alpha0_pos in Hq.
    pose proof (cut_of_move g ntp n' c t' Hc (not_eq_sym Htc)) as Hcut.
    specialize (IH _ _ _ Hloop). simpl in IH. lia.
Qed.

(** X11: with [io_balance_alpha = 0] every applied move lowers the cut by
    at least one, so the number of moves is at most the cut size the phase
    starts from, minus the cut size it ends with. *)
Theorem io_balance_alpha0_moves node_order idx_order g ps r :
  pairwise_disjoint ps ->
  io_balance node_order idx_order g 0 ps = Some r ->
  calculate_cut_size g (io_parts r) + length (io_trace r) <= calculate_cut_size g ps.
Proof.
  intros Hd H. unfold io_balance in H.
  destruct (io_loop_invariant _ _ _ _ _ _ _ _ (conj Hd (build_ntp_consistent _ Hd)) H)
    as (Hinv & _).
  unfold calculate_cut_size. rewrite (consistent_build_ntp _ _ Hinv).
  exact (io_loop_moves_cut _ _ _ _ _ _ _ H).
Qed.

(** X12: applying a balancing move of [n] from partition [c] to [t <> c]
    lowers the cut size by exactly [cut_gain] plus two for every self-loop
    on [n]. *)
Theorem apply_move_cut_change g ps n c t st :
  pairwise_disjoint ps ->
  build_ntp ps !! n = Some c -> c <> t ->
  apply_move ps (build_ntp ps) n t = Some st ->
  Z.of_nat (calculate_cut_size g ps) =
  (Z.of_nat (calculate_cut_size g st.1) + cut_gain g (build_ntp ps) n c t
   + 2 * Z.of_nat (self_loops g n))%Z.
Proof.
  intros Hd Hc Hct Hm.
  pose proof (apply_move_invariant _ _ _ _ _ (conj Hd (build_ntp_consistent _ Hd)) Hm) as Hinv.
  unfold calculate_cut_size at 2. rewrite (consistent_build_ntp _ _ Hinv).
  apply apply_move_inv in Hm as (c' & pc & pt & _ & _ & _ & _ & ->). simpl.
  exact (cut_of_move g _ n c t Hc Hct).
Qed.

(** X13: every step of the balancing loop applies one move the pass
    evaluated (a boundary node into the partition of one of its neighbours)
    whose [total_gain] is positive: each state of the trace comes from the
    one before it in this way. *)
Theorem io_balance_steps node_order idx_order g alpha ps r :
  is_iteration_order node_order -> is_iteration_order idx_order ->
  io_balance node_order idx_order g alpha ps = Some r ->
  forall k st st',
    ((ps, build_ntp ps) :: io_trace r) !! k = Some st -> io_trace r !! k = Some st' ->
    exists n t tg, candidate_move g alpha st.1 st.2 n t tg /\ Qlt 0 tg /\
      apply_move st.1 st.2 n t = Some st'.
Proof.
  intros Hno Hio. unfold io_balance. generalize (build_ntp ps) as ntp.
  generalize (length (g_nodes g)) as fuel.
  intros fuel. revert ps r. induction fuel as [|f IH]; intros ps r ntp H k st st' Hk Hk'.
  - simpl in H. injection H as <-. done.
  - io_loop_step H; simpl in *; try done.
    destruct k as [|k].
    + simpl in Hk, Hk'. injection Hk as <-. injection Hk' as <-.
      exists n, t, tg. split; [|done].
      eapply select_move_spec in Hsel as [_ Horig]; [|done|done]. by apply Horig.
    + simpl in Hk. destruct st0 as [ps1 ntp1].
      exact (IH ps1 r0 ntp1 Hloop k st st' Hk Hk').
Qed.

(** * Instances of the further properties on concrete inputs *)

Lemma wf_graph_check g :
  bool_decide (NoDup (g_nodes g)) && bool_decide (NoDup (g_edges g)) &&
  forallb (fun e : nat * nat => bool_decide (e.1 ∈ g_nodes g) && bool_decide (e.2 ∈ g_nodes g))
    (g_edges g) = true ->
  wf_graph g.
Proof.
  intros [[H1 H2]%andb_prop H3]%andb_prop.
  apply bool_decide_eq_true in H1, H2.
  split; [done|]. split; [done|]. intros u v He.
  rewrite forallb_forall in H3. apply list_elem_of_In in He.
  apply H3, andb_prop in He as [Hu Hv]. apply bool_decide_eq_true in Hu, Hv. done.
Qed.

Lemma build_ntp_last_index_witness :
  build_ntp [{[1]}; {[1; 2]}] !! 1 = Some 1 /\ build_ntp [{[1]}; {[1; 2]}] !! 3 = None.
Proof.
  split.
  - apply (proj2 (proj1 (build_ntp_last_index [{[1]}; {[1; 2]}] 1 1))). split.
    + exists {[1; 2]}. split; [reflexivity|set_solver].
    + intros j Hj (P & HP & _). apply lookup_lt_Some in HP. simpl in HP. lia.
  - apply (proj2 (proj2 (build_ntp_last_index [{[1]}; {[1; 2]}] 3 0))).
    intros [j (P & HP & Hx)]. destruct j as [|[|j]]; simpl in HP; try discriminate HP;
      injection HP as <-; set_solver.
Defined.

Lemma calculate_cut_size_count_witness :
  calculate_cut_size ex_graph [{[1; 3]}; {[2; 4]}] =
  length (filter (fun e => cut_edgeb [{[1; 3]}; {[2; 4]}] e = true) (g_edges ex_graph)).
Proof.
  apply (calculate_cut_size_count ex_graph [{[1; 3]}; {[2; 4]}]).
  apply disjoint_listb_sound. vm_compute. reflexivity.
Defined.

Lemma calculate_cut_size_nonempty_members_witness :
  calculate_cut_size ex_graph [{[1; 3]}; ∅; {[2; 4]}] =
  calculate_cut_size ex_graph [{[2; 4]}; {[1; 3]}].
Proof.
  apply (calculate_cut_size_nonempty_members ex_graph [{[1; 3]}; ∅; {[2; 4]}]
           [{[2; 4]}; {[1; 3]}]).
  - apply disjoint_listb_sound. vm_compute. reflexivity.
  - apply disjoint_listb_sound. vm_compute. reflexivity.
  - intros P HP. rewrite !elem_of_cons, !elem_of_nil. naive_solver.
Defined.

Lemma get_io_for_partition_bounded_witness :
  (get_io_for_partition (mk_graph [1; 2; 3] [(1, 2); (3, 1)]) {[1]}).1 <=
    size (list_to_set [1; 2; 3] ∖ {[1]} : gset nat) /\
  (get_io_for_partition (mk_graph [1; 2; 3] [(1, 2); (3, 1)]) {[1]}).2 <=
    size (list_to_set [1; 2; 3] ∖ {[1]} : gset nat) /\
  (list_to_set [1; 2; 3] ⊆ ({[1]} : gset nat) ->
   get_io_for_partition (mk_graph [1; 2; 3] [(1, 2); (3, 1)]) {[1]} = (0, 0)).
Proof.
  apply (get_io_for_partition_bounded (mk_graph [1; 2; 3] [(1, 2); (3, 1)]) {[1]}).
  apply wf_graph_check. vm_compute. reflexivity.
Defined.

Lemma assign_labels_result_witness :
  ~ is_Some (assign_labels (replicate 2 ∅) [1; 2] [0; 2]) /\
  match assign_labels (replicate 2 ∅) [1; 2; 3; 4] [0; 1; 0; 1] with
  | Some ps => length ps = 2 /\
      forall i x, in_part ps i x <->
        exists p, [1; 2; 3; 4] !! p = Some x /\ [0; 1; 0; 1] !! p = Some i
  | None => False
  end.
Proof.
  split.
  - intros H. apply (proj1 (proj1 (assign_labels_result 2 [1; 2] [0; 2]))) in H as [_ Hl].
    specialize (Hl 1 2 eq_refl). simpl in Hl. lia.
  - destruct (proj2 (proj1 (assign_labels_result 2 [1; 2; 3; 4] [0; 1; 0; 1]))) as [ps E].
    + split; [simpl; lia|]. intros p l Hp _. apply list_elem_of_lookup_2 in Hp.
      rewrite !elem_of_cons, elem_of_nil in Hp. lia.
    + rewrite E. exact (proj2 (assign_labels_result 2 [1; 2; 3; 4] [0; 1; 0; 1]) ps E).
Defined.

Lemma refine_pairs_keeps_partition_witness :
  match refine_pairs ex_kl ex_graph 10 [{[1; 2]}; {[3; 4]}; {[5]}] [(0, 1)] with
  | Some ps' =>
      pairwise_disjoint ps' /\
      (forall x, (exists i, in_part ps' i x) <->
                 (exists i, in_part [{[1; 2]}; {[3; 4]}; {[5]}] i x)) /\
      length ps' = 3 /\
      (forall k, (forall i j, (i, j) ∈ [(0, 1)] -> k <> i /\ k <> j) ->
         ps' !! k = [{[1; 2]}; {[3; 4]}; {[5]}] !! k)
  | None => False
  end.
Proof.
  destruct (refine_pairs ex_kl ex_graph 10 [{[1; 2]}; {[3; 4]}; {[5]}] [(0, 1)])
    as [ps'|] eqn:E; [|vm_compute in E; discriminate E].
  apply (refine_pairs_keeps_partition ex_kl ex_graph 10 [{[1; 2]}; {[3; 4]}; {[5]}]
           [(0, 1)] ps').
  - apply ex_kl_contract.
  - intros i j H. apply list_elem_of_singleton in H. injection H as -> ->. lia.
  - apply disjoint_listb_sound. vm_compute. reflexivity.
  - exact E.
Defined.

Lemma refine_adjacent_pairs_some_witness :
  is_Some (refine_pairs ex_kl ex_graph 10 [{[1; 3]}; {[2; 4]}]
             (elements (find_adjacent_partitions ex_graph [{[1; 3]}; {[2; 4]}]))).
Proof.
  exact (refine_adjacent_pairs_some ex_kl (fun l => l) ex_graph 10 [{[1; 3]}; {[2; 4]}]
           id_iteration_order).
Defined.

Lemma hybrid_partitioner_errors_witness :
  hybrid_partitioner ex_labels ex_kl (fun l => l) (fun l => l) (fun l => l) ex_graph 0 10 0
    = None /\
  is_Some (hybrid_partitioner ex_labels ex_kl (fun l => l) (fun l => l) (fun l => l)
             ex_graph 2 10 0).
Proof.
  destruct (hybrid_partitioner_errors ex_labels ex_kl (fun l => l) (fun l => l) (fun l => l)
              ex_graph 0 10 0) as [H0 _]; [discriminate|].
  destruct (hybrid_partitioner_errors ex_labels ex_kl (fun l => l) (fun l => l) (fun l => l)
              ex_graph 2 10 0) as [_ H2]; [discriminate|].
  split; [exact (H0 eq_refl)|].
  apply H2.
  - lia.
  - apply wf_graph_check. vm_compute. reflexivity.
  - apply ex_kl_contract.
  - apply id_iteration_order.
  - apply id_iteration_order.
  - apply id_iteration_order.
  - cbv zeta. change (ceil_div (length (g_nodes ex_graph)) 2) with 2.
    split; [simpl; lia|]. intros p l Hp _. change (ex_labels ex_graph 2) with [0; 1; 0; 1] in Hp. apply list_elem_of_lookup_2 in Hp.
    rewrite !elem_of_cons, elem_of_nil in Hp. lia.
Defined.

Lemma io_balance_no_cut_witness :
  io_balance (fun l => l) (fun l => l) ex_graph 0 [{[1; 2]}; {[3; 4]}] =
    Some (mk_io_outcome [{[1; 2]}; {[3; 4]}] (build_ntp [{[1; 2]}; {[3; 4]}]) NoBoundary 1 []).
Proof.
  apply (io_balance_no_cut (fun l => l) (fun l => l) ex_graph 0 [{[1; 2]}; {[3; 4]}]).
  - simpl. lia.
  - vm_compute. reflexivity.
Defined.

Lemma io_balance_alpha0_moves_witness :
  match io_balance (fun l => l) (fun l => l) ex_graph 0 [{[1; 3]}; {[2; 4]}] with
  | Some r => calculate_cut_size ex_graph (io_parts r) + length (io_trace r) <=
                calculate_cut_size ex_graph [{[1; 3]}; {[2; 4]}]
  | None => False
  end.
Proof.
  destruct (io_balance (fun l => l) (fun l => l) ex_graph 0 [{[1; 3]}; {[2; 4]}])
    as [r|] eqn:E; [|vm_compute in E; discriminate E].
  apply (io_balance_alpha0_moves (fun l => l) (fun l => l) ex_graph [{[1; 3]}; {[2; 4]}] r).
  - apply disjoint_listb_sound. vm_compute. reflexivity.
  - exact E.
Defined.

Lemma apply_move_cut_change_witness :
  let ps := [{[1; 3]}; {[2; 4]}] in
  match apply_move ps (build_ntp ps) 1 1 with
  | Some st =>
      Z.of_nat (calculate_cut_size ex_graph ps) =
      (Z.of_nat (calculate_cut_size ex_graph st.1) + cut_gain ex_graph (build_ntp ps) 1 0 1
       + 2 * Z.of_nat (self_loops ex_graph 1))%Z
  | None => False
  end.
Proof.
  cbv zeta.
  destruct (apply_move [{[1; 3]}; {[2; 4]}] (build_ntp [{[1; 3]}; {[2; 4]}]) 1 1)
    as [st|] eqn:E; [|vm_compute in E; discriminate E].
  apply (apply_move_cut_change ex_graph [{[1; 3]}; {[2; 4]}] 1 0 1 st).
  - apply disjoint_listb_sound. vm_compute. reflexivity.
  - vm_compute. reflexivity.
  - lia.
  - exact E.
Defined.

Lemma io_balance_steps_witness :
  match io_balance (fun l => l) (fun l => l) ex_graph 0 [{[1; 3]}; {[2; 4]}] with
  | Some r =>
      forall k st st',
        (([{[1; 3]}; {[2; 4]}], build_ntp [{[1; 3]}; {[2; 4]}]) :: io_trace r) !! k = Some st ->
        io_trace r !! k = Some st' ->
        exists n t tg, candidate_move ex_graph 0 st.1 st.2 n t tg /\ Qlt 0 tg /\
          apply_move st.1 st.2 n t = Some st'
  | None => False
  end.
Proof.
  destruct (io_balance (fun l => l) (fun l => l) ex_graph 0 [{[1; 3]}; {[2; 4]}])
    as [r|] eqn:E; [|vm_compute in E; discriminate E].
  exact (io_balance_steps (fun l => l) (fun l => l) ex_graph 0 [{[1; 3]}; {[2; 4]}] r
           id_iteration_order id_iteration_order E).
Defined.
